(** * fluxor-samsui native runtime: a shallow embedding and its checked properties

    The development follows the C++ sources under [app/src/main/cpp]:
    - [message_encryption.cpp]  XOR + base64 string obfuscation,
    - [blob_storage.cpp]        byte-blob persistence,
    - [thread_manager.cpp]      the worker thread pool and the thread registry,
    - [io_bridge.cpp]           the event queue with single-flight drain,
    - [socket_manager.cpp]      the length-framed TCP broadcast server,
    - [native-lib.cpp]          the pool that [initThreadManager] starts.

    Part I holds the definitions, in modules named after the classes; Part II holds
    the lemmas and theorems about them. *)

From Stdlib Require Import ZArith List Ascii String Strings.Byte Lia Bool.
From Stdlib Require Import DecimalString.
From stdpp Require Import base list.
Import ListNotations.
Local Open Scope Z_scope.

(* ===================================================================== *)
(** * Part I: definitions                                                  *)
(* ===================================================================== *)

(** ** Characters *)
Module Char8.

(** A [std::string] is a sequence of [char]; a [char] is modelled by its
    8-bit pattern ([ascii]), read as the value 0..255 ([unsigned char]). *)
Definition uchar (c : ascii) : Z := Z.of_N (N_of_ascii c).

(** Narrowing an integer to [char] keeps the low eight bits. *)
Definition to_char (z : Z) : ascii := ascii_of_N (Z.to_N (z mod 256)).

End Char8.

(** ** message_encryption.cpp *)
Module MessageEncryption.
Import Char8.

(** [int] is 32 bits wide, two's complement: a left shift keeps the value
    modulo 2^32 in the range [-2^31, 2^31). *)
Definition wrap32 (z : Z) : Z := (z + 2147483648) mod 4294967296 - 2147483648.

Definition ENCRYPTION_KEY : list ascii :=
  list_ascii_of_string "FluxorSecretKey2024!".

Definition BASE64_CHARS : list ascii :=
  list_ascii_of_string
    "ABCDEFGHIJKLMNOPQRSTUVWXYZabcdefghijklmnopqrstuvwxyz0123456789+/".

(** [BASE64_CHARS[i]] *)
Definition base64_char (i : Z) : ascii := nth (Z.to_nat i) BASE64_CHARS zero.

(** The inner loop of [base64Encode]:
    [while (valb >= 0) { output.push_back(...); valb -= 6; }].
    The recursion is on a counter; [emit_fuel] is always enough for the loop
    to leave through its condition (lemma [emit_loop_exits]). *)
Fixpoint emit_loop (fuel : nat) (val valb : Z) (output : list ascii)
  : Z * list ascii :=
  match fuel with
  | O => (valb, output)
  | S fuel' =>
      if 0 <=? valb
      then emit_loop fuel' val (valb - 6)
             (output ++ [base64_char (Z.land (Z.shiftr val valb) 63)])
      else (valb, output)
  end.

Definition emit_fuel (valb : Z) : nat := Z.to_nat (valb + 1).

(** The body of [for (unsigned char c : input)]. *)
Definition encode_step (c : ascii) (st : Z * Z * list ascii)
  : Z * Z * list ascii :=
  let '(val, valb, output) := st in
  let val := wrap32 (Z.shiftl val 8 + uchar c) in
  let valb := valb + 8 in
  let '(valb, output) := emit_loop (emit_fuel valb) val valb output in
  (val, valb, output).

Fixpoint encode_loop (input : list ascii) (st : Z * Z * list ascii)
  : Z * Z * list ascii :=
  match input with
  | [] => st
  | c :: rest => encode_loop rest (encode_step c st)
  end.

(** [while (output.size() % 4) output.push_back('=')]: at most three
    rounds, so four units of fuel always reach the exit (lemma
    [pad_loop_exits]). *)
Fixpoint pad_loop (fuel : nat) (output : list ascii) : list ascii :=
  match fuel with
  | O => output
  | S fuel' =>
      if (length output mod 4 =? 0)%nat then output
      else pad_loop fuel' (output ++ ["="%char])
  end.

(** What follows the [for] loop of [base64Encode]. *)
Definition encode_finish (st : Z * Z * list ascii) : list ascii :=
  let '(val, valb, output) := st in
  let output :=
    if -6 <? valb
    then output ++
         [base64_char (Z.land (Z.shiftr (wrap32 (Z.shiftl val 8)) (valb + 8)) 63)]
    else output in
  pad_loop 4 output.

Definition base64Encode (input : list ascii) : list ascii :=
  encode_finish (encode_loop input (0, -6, [])).

(** The search [for (size_t i = 0; i < 64; ++i) if (BASE64_CHARS[i] == c)]:
    the first index holding [c], if any. *)
Fixpoint find_pos (c : ascii) (chars : list ascii) (i : Z) : option Z :=
  match chars with
  | [] => None
  | x :: chars' => if (x =? c)%char then Some i else find_pos c chars' (i + 1)
  end.

(** The [for (char c : input)] loop of [base64Decode]: it stops at the
    first ['='] and skips characters outside the alphabet. *)
Fixpoint decode_loop (input : list ascii) (val valb : Z) (output : list ascii)
  : list ascii :=
  match input with
  | [] => output
  | c :: rest =>
      if (c =? "=")%char then output
      else
        match find_pos c BASE64_CHARS 0 with
        | None => decode_loop rest val valb output
        | Some pos =>
            let val := wrap32 (Z.shiftl val 6 + pos) in
            let valb := valb + 6 in
            if 0 <=? valb
            then decode_loop rest val (valb - 8)
                   (output ++ [to_char (Z.land (Z.shiftr val valb) 255)])
            else decode_loop rest val valb output
        end
  end.

Definition base64Decode (input : list ascii) : list ascii :=
  decode_loop input 0 (-8) [].

(** [ENCRYPTION_KEY[i % ENCRYPTION_KEY.size()]] *)
Definition key_char (i : nat) : ascii :=
  nth (i mod length ENCRYPTION_KEY)%nat ENCRYPTION_KEY zero.

(** The XOR loop shared by both directions, started at index [i]:
    [out.push_back(in[i] ^ keyChar)]. *)
Fixpoint xor_loop (i : nat) (message : list ascii) : list ascii :=
  match message with
  | [] => []
  | c :: rest =>
      to_char (Z.lxor (uchar c) (uchar (key_char i))) :: xor_loop (S i) rest
  end.

Definition encryptMessage (message : list ascii) : list ascii :=
  match message with
  | [] => message
  | _ => base64Encode (xor_loop 0 message)
  end.

Definition decryptMessage (encryptedMessage : list ascii) : list ascii :=
  match encryptedMessage with
  | [] => encryptedMessage
  | _ => xor_loop 0 (base64Decode encryptedMessage)
  end.

(** The encoder read four characters per three bytes; a device of the
    proofs, compared with [base64Encode] in [base64Encode_blocks]. *)
Definition sextets (b1 b2 b3 : Z) : list Z :=
  [b1 / 4; (b1 mod 4) * 16 + b2 / 16; (b2 mod 16) * 4 + b3 / 64; b3 mod 64].

Fixpoint encode_blocks (input : list ascii) : list ascii :=
  match input with
  | [] => []
  | [a] =>
      [base64_char (uchar a / 4); base64_char ((uchar a mod 4) * 16);
       "="%char; "="%char]
  | [a; b] =>
      [base64_char (uchar a / 4);
       base64_char ((uchar a mod 4) * 16 + uchar b / 16);
       base64_char ((uchar b mod 16) * 4); "="%char]
  | a :: b :: c :: rest =>
      map base64_char (sextets (uchar a) (uchar b) (uchar c))
      ++ encode_blocks rest
  end.

(** Whether the search of [base64Decode] finds the character. *)
Definition in_alphabet (c : ascii) : bool :=
  match find_pos c BASE64_CHARS 0 with Some _ => true | None => false end.

(** The characters [base64Decode] does not skip: the letters of the
    alphabet and the padding sign. *)
Definition read_by_decoder (c : ascii) : bool :=
  (c =? "=")%char || in_alphabet c.

End MessageEncryption.

(** ** blob_storage.cpp *)
Module BlobStorage.

(** What [stat] reports about a path that exists. *)
Record StatInfo := { is_dir : bool; is_reg : bool; st_size : Z }.

(** The outcome of [mkdir]: success, failure with [errno == EEXIST], or
    failure with another [errno]. *)
Inductive MkdirResult := MkdirOk | MkdirExists | MkdirFailed.

(** The file-system calls the module makes, over a world [W] the caller
    supplies.  [None] from [os_stat] is a non-zero return; [None] from the
    two [open]s is a stream that is not open; the booleans of [os_write]
    and [os_read] are the stream's state after the transfer; the boolean
    of [os_unlink] is a zero return. *)
Record OS (W : Type) := {
  os_stat : string -> W -> option StatInfo;
  os_mkdir : string -> W -> MkdirResult * W;
  os_open_trunc : string -> W -> option W;
  os_write : string -> list byte -> W -> bool * W;
  os_open_ate : string -> W -> option Z;
  os_read : string -> Z -> W -> list byte * bool;
  os_unlink : string -> W -> bool * W
}.
Arguments os_stat {W}. Arguments os_mkdir {W}. Arguments os_open_trunc {W}.
Arguments os_write {W}. Arguments os_open_ate {W}. Arguments os_read {W}.
Arguments os_unlink {W}.

(** Every call is also logged, so that a path through the code that makes
    no call can be told from one that does. *)
Inductive Call :=
| CStat (path : string)
| CMkdir (path : string)
| COpenTrunc (path : string)
| CWrite (path : string) (data : list byte)
| COpenAte (path : string)
| CRead (path : string) (n : Z)
| CUnlink (path : string).

Section WithOS.
Context {W : Type} (os : OS W).

(** A computation over the world and the log of calls. *)
Definition IO (A : Type) : Type := W * list Call -> A * (W * list Call).

Definition ret {A} (a : A) : IO A := fun s => (a, s).
Definition bind {A B} (m : IO A) (k : A -> IO B) : IO B :=
  fun s => let '(a, s') := m s in k a s'.

Definition stat (path : string) : IO (option StatInfo) :=
  fun '(w, log) => (os_stat os path w, (w, log ++ [CStat path])).
Definition mkdir (path : string) : IO MkdirResult :=
  fun '(w, log) =>
    let '(r, w') := os_mkdir os path w in (r, (w', log ++ [CMkdir path])).
Definition open_trunc (path : string) : IO bool :=
  fun '(w, log) =>
    match os_open_trunc os path w with
    | Some w' => (true, (w', log ++ [COpenTrunc path]))
    | None => (false, (w, log ++ [COpenTrunc path]))
    end.
Definition write (path : string) (data : list byte) : IO bool :=
  fun '(w, log) =>
    let '(r, w') := os_write os path data w in
    (r, (w', log ++ [CWrite path data])).
Definition open_ate (path : string) : IO (option Z) :=
  fun '(w, log) => (os_open_ate os path w, (w, log ++ [COpenAte path])).
Definition read (path : string) (n : Z) : IO (list byte * bool) :=
  fun '(w, log) => (os_read os path n w, (w, log ++ [CRead path n])).
Definition unlink (path : string) : IO bool :=
  fun '(w, log) =>
    let '(r, w') := os_unlink os path w in (r, (w', log ++ [CUnlink path])).

(** [filePath.find_last_of('/')] *)
Fixpoint find_last_of_from (i : nat) (s : string) (last : option nat)
  : option nat :=
  match s with
  | EmptyString => last
  | String c s' =>
      find_last_of_from (S i) s' (if (c =? "/")%char then Some i else last)
  end.
Definition find_last_of (s : string) : option nat := find_last_of_from 0 s None.

(** [dirPath.find('/', from)] *)
Definition find_slash (from : nat) (s : string) : option nat :=
  index from "/" s.

(** The loop [while ((pos = dirPath.find('/', pos + 1)) != npos)]; [pos]
    grows in every round, so the length of the path bounds the rounds. *)
Fixpoint mkdir_parents (fuel : nat) (dirPath : string) (pos : nat) : IO bool :=
  match fuel with
  | O => ret true
  | S fuel' =>
      match find_slash (pos + 1) dirPath with
      | None => ret true
      | Some pos' =>
          let parentDir := substring 0 pos' dirPath in
          bind (stat parentDir) (fun info =>
            match info with
            | Some _ => mkdir_parents fuel' dirPath pos'
            | None =>
                bind (mkdir parentDir) (fun r =>
                  match r with
                  | MkdirFailed => ret false
                  | _ => mkdir_parents fuel' dirPath pos'
                  end)
            end)
      end
  end.

Definition ensureDirectoryExists (filePath : string) : IO bool :=
  match find_last_of filePath with
  | None => ret false
  | Some lastSlash =>
      let dirPath := substring 0 lastSlash filePath in
      bind (stat dirPath) (fun info =>
        match info with
        | Some {| is_dir := true |} => ret true
        | _ =>
            bind (mkdir_parents (String.length dirPath) dirPath 0) (fun ok =>
              if ok then
                bind (mkdir dirPath) (fun r =>
                  match r with
                  | MkdirFailed => ret false
                  | _ => ret true
                  end)
              else ret false)
        end)
  end.

(** [saveMessages(filePath, data, length)]; [data] is [None] for a null
    pointer, and the bytes written are the first [length] at the pointer. *)
Definition saveMessages (filePath : string) (data : option (list byte))
           (length : nat) : IO bool :=
  match data, length with
  | None, _ => ret false
  | _, O => ret false
  | Some bytes, _ =>
      bind (ensureDirectoryExists filePath) (fun ok =>
        if negb ok then ret false
        else
          bind (open_trunc filePath) (fun opened =>
            if negb opened then ret false
            else
              bind (write filePath (firstn length bytes)) (fun good =>
                if negb good then ret false else ret true)))
  end.

(** [loadMessages(filePath, data)]: the result and the contents of the
    output vector; [old] is what the vector held before the call. *)
Definition loadMessages (filePath : string) (old : list byte)
  : IO (bool * list byte) :=
  bind (stat filePath) (fun info =>
    match info with
    | None => ret (true, [])
    | Some i =>
        if negb (is_reg i) then ret (false, old)
        else
          bind (open_ate filePath) (fun opened =>
            match opened with
            | None => ret (false, old)
            | Some fileSize =>
                if fileSize <=? 0 then ret (true, [])
                else
                  bind (read filePath fileSize) (fun '(bytes, ok) =>
                    if negb ok then ret (false, bytes) else ret (true, bytes))
            end)
    end).

Definition clearMessages (filePath : string) : IO bool :=
  bind (stat filePath) (fun info =>
    match info with
    | None => ret true
    | Some _ => bind (unlink filePath) (fun ok => ret ok)
    end).

Definition hasMessages (filePath : string) : IO bool :=
  bind (stat filePath) (fun info =>
    match info with
    | None => ret false
    | Some i => if negb (is_reg i) then ret false else ret (0 <? st_size i)
    end).

Definition getStorageSize (filePath : string) : IO Z :=
  bind (stat filePath) (fun info =>
    match info with
    | None => ret 0
    | Some i => if negb (is_reg i) then ret 0 else ret (st_size i)
    end).

End WithOS.

(** A file system with nothing in it, on which nothing can be created. *)
Definition bare_os : OS unit := {|
  os_stat := fun _ _ => None;
  os_mkdir := fun _ w => (MkdirFailed, w);
  os_open_trunc := fun _ _ => None;
  os_write := fun _ _ w => (false, w);
  os_open_ate := fun _ _ => None;
  os_read := fun _ _ _ => ([], false);
  os_unlink := fun _ w => (false, w)
|}.

(** A file system reads back what was written: once a file has been
    opened for writing and the write has succeeded, [stat] reports a
    regular file of the length written, opening it at its end gives that
    length, and reading that many bytes gives the bytes written. *)
Definition reads_back {W : Type} (os : OS W) : Prop :=
  forall path data w w1 w2,
    os_open_trunc os path w = Some w1 ->
    os_write os path data w1 = (true, w2) ->
    os_stat os path w2
    = Some {| is_dir := false; is_reg := true;
              st_size := Z.of_nat (List.length data) |}
    /\ os_open_ate os path w2 = Some (Z.of_nat (List.length data))
    /\ os_read os path (Z.of_nat (List.length data)) w2 = (data, true).

(** A file system kept in memory, for the examples: a path is free, a
    directory or a file with its bytes. *)
Inductive Node := Dir | File (bytes : list byte).

Definition put (path : string) (n : option Node) (w : string -> option Node)
  : string -> option Node :=
  fun p => if String.eqb p path then n else w p.

Definition mem_os : OS (string -> option Node) := {|
  os_stat := fun path w =>
    match w path with
    | Some Dir => Some {| is_dir := true; is_reg := false; st_size := 4096 |}
    | Some (File bytes) =>
        Some {| is_dir := false; is_reg := true;
                st_size := Z.of_nat (List.length bytes) |}
    | None => None
    end;
  os_mkdir := fun path w =>
    match w path with
    | Some _ => (MkdirExists, w)
    | None => (MkdirOk, put path (Some Dir) w)
    end;
  os_open_trunc := fun path w =>
    match w path with
    | Some Dir => None
    | _ => Some (put path (Some (File [])) w)
    end;
  os_write := fun path data w => (true, put path (Some (File data)) w);
  os_open_ate := fun path w =>
    match w path with
    | Some (File bytes) => Some (Z.of_nat (List.length bytes))
    | _ => None
    end;
  os_read := fun path n w =>
    match w path with
    | Some (File bytes) => (firstn (Z.to_nat n) bytes, true)
    | _ => ([], false)
    end;
  os_unlink := fun path w =>
    match w path with
    | Some (File _) => (true, put path None w)
    | _ => (false, w)
    end
|}.

(** The empty file system, with the root directory only. *)
Definition only_root : string -> option Node :=
  fun p => if String.eqb p "/" then Some Dir else None.

(** A file system forgets what was unlinked: after an [unlink] that
    returned zero, [stat] of that path fails. *)
Definition unlink_removes {W : Type} (os : OS W) : Prop :=
  forall path w w',
    os_unlink os path w = (true, w') -> os_stat os path w' = None.

(** The memory file system after three bytes were saved. *)
Definition saved : (string -> option Node) * list Call :=
  snd (saveMessages mem_os "/data/app/messages.bin" (Some [x01; x02; x03]) 3
         (only_root, [])).

End BlobStorage.

(** ** thread_manager.cpp: the worker pool *)
Module ThreadManager.

Section WithTask.
(** A task is an opaque [std::function<void()>]. *)
Context {Task : Type}.

(** Where a pool thread stands in [workerFunction]: blocked in
    [condition_.wait] (or about to reach it), between the dequeue and the
    end of [task()], or returned. *)
Inductive Worker := Waiting | Running (task : Task) | Exited.

(** Where the one caller of [shutdownThreadPool] stands: not inside, blocked
    in the [join] loop after the stop flag is set, or returned. *)
Inductive ShutdownPc := NotCalled | Joining | Returned.

(** The pool's fields, followed by three logs kept for the statements:
    the tasks [submitTask] put on the queue, the tasks a worker dequeued
    while [stopPool_] was still false, and the tasks that ran to their end,
    each in the order of the events. *)
Record Pool := {
  poolThreads_ : list Worker;
  taskQueue_ : list Task;
  stopPool_ : bool;
  activeTasks_ : Z;
  shutdown_pc : ShutdownPc;
  accepted : list Task;
  dequeuedBeforeStop : list Task;
  executed : list Task
}.

(** [ThreadManager()] followed by [initializeThreadPool(poolSize)]: there is
    no earlier pool to shut down, and [poolSize] workers start. *)
Definition initializeThreadPool (poolSize : nat) : Pool := {|
  poolThreads_ := replicate poolSize Waiting;
  taskQueue_ := [];
  stopPool_ := false;
  activeTasks_ := 0;
  shutdown_pc := NotCalled;
  accepted := [];
  dequeuedBeforeStop := [];
  executed := []
|}.

(** [submitTask]: under the queue lock, nothing if stopped, else push. *)
Definition submitTask (task : Task) (p : Pool) : Pool :=
  if stopPool_ p then p
  else {|
    poolThreads_ := poolThreads_ p;
    taskQueue_ := taskQueue_ p ++ [task];
    stopPool_ := stopPool_ p;
    activeTasks_ := activeTasks_ p;
    shutdown_pc := shutdown_pc p;
    accepted := accepted p ++ [task];
    dequeuedBeforeStop := dequeuedBeforeStop p;
    executed := executed p
  |}.

(** The locked block of [workerFunction] for worker [i]: the wait returns
    once [stopPool_ || !taskQueue_.empty()]; the worker leaves only when
    stopped with an empty queue, and otherwise takes the front task.  [None]
    is a worker that stays blocked, or no waiting worker [i]. *)
Definition worker_wake (i : nat) (p : Pool) : option Pool :=
  match poolThreads_ p !! i with
  | Some Waiting =>
      match taskQueue_ p with
      | [] =>
          if stopPool_ p
          then Some {|
            poolThreads_ := <[i := Exited]> (poolThreads_ p);
            taskQueue_ := [];
            stopPool_ := stopPool_ p;
            activeTasks_ := activeTasks_ p;
            shutdown_pc := shutdown_pc p;
            accepted := accepted p;
            dequeuedBeforeStop := dequeuedBeforeStop p;
            executed := executed p
          |}
          else None
      | task :: rest =>
          Some {|
            poolThreads_ := <[i := Running task]> (poolThreads_ p);
            taskQueue_ := rest;
            stopPool_ := stopPool_ p;
            activeTasks_ := activeTasks_ p + 1;
            shutdown_pc := shutdown_pc p;
            accepted := accepted p;
            dequeuedBeforeStop :=
              if stopPool_ p then dequeuedBeforeStop p
              else dequeuedBeforeStop p ++ [task];
            executed := executed p
          |}
      end
  | _ => None
  end.

(** [task()] has returned (or thrown into the [catch (...)]) on worker [i]:
    [activeTasks_--] and back to the top of the loop. *)
Definition worker_done (i : nat) (p : Pool) : option Pool :=
  match poolThreads_ p !! i with
  | Some (Running task) =>
      Some {|
        poolThreads_ := <[i := Waiting]> (poolThreads_ p);
        taskQueue_ := taskQueue_ p;
        stopPool_ := stopPool_ p;
        activeTasks_ := activeTasks_ p - 1;
        shutdown_pc := shutdown_pc p;
        accepted := accepted p;
        dequeuedBeforeStop := dequeuedBeforeStop p;
        executed := executed p ++ [task]
      |}
  | _ => None
  end.

(** [shutdownThreadPool], first half: the stop flag and [notify_all]. *)
Definition shutdown_begin (p : Pool) : option Pool :=
  match shutdown_pc p with
  | NotCalled =>
      Some {|
        poolThreads_ := poolThreads_ p;
        taskQueue_ := taskQueue_ p;
        stopPool_ := true;
        activeTasks_ := activeTasks_ p;
        shutdown_pc := Joining;
        accepted := accepted p;
        dequeuedBeforeStop := dequeuedBeforeStop p;
        executed := executed p
      |}
  | _ => None
  end.

Definition has_exited (w : Worker) : bool :=
  match w with Exited => true | _ => false end.

(** [shutdownThreadPool], second half: every [join] has returned, which
    takes every worker to have left [workerFunction]; then
    [poolThreads_.clear()] and the swap with an empty queue. *)
Definition shutdown_end (p : Pool) : option Pool :=
  match shutdown_pc p with
  | Joining =>
      if forallb has_exited (poolThreads_ p)
      then Some {|
        poolThreads_ := [];
        taskQueue_ := [];
        stopPool_ := stopPool_ p;
        activeTasks_ := activeTasks_ p;
        shutdown_pc := Returned;
        accepted := accepted p;
        dequeuedBeforeStop := dequeuedBeforeStop p;
        executed := executed p
      |}
      else None
  | _ => None
  end.

(** The atomic steps of the threads that touch the pool. *)
Inductive Action :=
| SubmitTask (task : Task)
| WorkerWake (i : nat)
| WorkerDone (i : nat)
| ShutdownBegin
| ShutdownEnd.

Definition step (a : Action) (p : Pool) : option Pool :=
  match a with
  | SubmitTask task => Some (submitTask task p)
  | WorkerWake i => worker_wake i p
  | WorkerDone i => worker_done i p
  | ShutdownBegin => shutdown_begin p
  | ShutdownEnd => shutdown_end p
  end.

(** An interleaving is a list of steps, run from the left. *)
Fixpoint run (acts : list Action) (p : Pool) : option Pool :=
  match acts with
  | [] => Some p
  | a :: acts' =>
      match step a p with
      | Some p' => run acts' p'
      | None => None
      end
  end.

(** The tasks in the hands of the workers. *)
Definition running_task (w : Worker) : list Task :=
  match w with Running task => [task] | _ => [] end.
Definition running (ws : list Worker) : list Task :=
  flat_map running_task ws.

(** What every reachable state of a pool of [n] workers satisfies.  The
    last clause accounts for each accepted task: it has run, is running,
    or is still queued. *)
Definition pool_inv (n : nat) (p : Pool) : Prop :=
  (shutdown_pc p <> Returned -> length (poolThreads_ p) = n)
  /\ (shutdown_pc p <> NotCalled -> stopPool_ p = true)
  /\ (Exited ∈ poolThreads_ p -> stopPool_ p = true /\ taskQueue_ p = [])
  /\ (shutdown_pc p = Returned -> poolThreads_ p = [] /\ taskQueue_ p = [])
  /\ ((0 < n)%nat ->
      accepted p ≡ₚ executed p ++ running (poolThreads_ p) ++ taskQueue_ p).

(** The queue is served first in, first out: the tasks still queued are
    the tail of the accepted ones, in order, and the tasks before them are
    those running or run. *)
Definition served_in_order (p : Pool) : Prop :=
  exists started,
    accepted p = started ++ taskQueue_ p
    /\ started ≡ₚ executed p ++ running (poolThreads_ p).

(** [stopPool_] is set from the call of [shutdownThreadPool] on, and
    [activeTasks_] counts the tasks in the hands of the workers. *)
Definition counters_inv (p : Pool) : Prop :=
  (stopPool_ p = true <-> shutdown_pc p <> NotCalled)
  /\ activeTasks_ p = Z.of_nat (length (running (poolThreads_ p))).

End WithTask.
Arguments Worker : clear implicits.
Arguments Pool : clear implicits.
Arguments Action : clear implicits.

(** The sentence of the design under test: once [shutdownThreadPool] has
    returned, the tasks that ran are those a worker had dequeued before the
    stop flag was set. *)
Definition queued_tasks_discarded (poolSize : nat) : Prop :=
  forall (acts : list (Action nat)) (p : Pool nat),
    run acts (initializeThreadPool poolSize) = Some p ->
    shutdown_pc p = Returned ->
    forall task, In task (executed p) <-> In task (dequeuedBeforeStop p).

(** One worker, one task queued and not yet dequeued when the stop flag is
    set: the worker takes it after the flag, runs it, finds the queue empty
    and leaves; then [shutdownThreadPool] returns. *)
Definition shutdown_with_queued_task : list (Action nat) :=
  [SubmitTask 7%nat; ShutdownBegin; WorkerWake 0; WorkerDone 0; WorkerWake 0;
   ShutdownEnd].

(** The state that run ends in. *)
Definition after_shutdown : Pool nat :=
  Eval vm_compute in
    match run shutdown_with_queued_task (initializeThreadPool 1) with
    | Some p => p
    | None => initializeThreadPool 1
    end.

(** Two workers and three tasks: the second worker takes task 1, the first
    one takes task 2 and finishes it; task 3 is still queued. *)
Definition two_workers_busy : list (Action nat) :=
  [SubmitTask 1%nat; SubmitTask 2%nat; SubmitTask 3%nat; WorkerWake 1;
   WorkerWake 0; WorkerDone 0].

Definition while_busy : Pool nat :=
  Eval vm_compute in
    match run two_workers_busy (initializeThreadPool 2) with
    | Some p => p
    | None => initializeThreadPool 2
    end.

End ThreadManager.

(** ** thread_manager.cpp: the registry of named threads *)
Module ThreadRegistry.
Local Open Scope nat_scope.
Local Open Scope string_scope.

Inductive ThreadState := CREATED | RUNNING | WAITING | TERMINATED.

(** How far the lambda that [createThread] hands to [std::thread] has got:
    it sets the state to RUNNING, runs the task (exceptions are swallowed)
    and sets the state to TERMINATED. *)
Inductive Body := NotStarted | InTask | Finished.

(** [thread] is the [unique_ptr<std::thread>]: [None] for a null pointer,
    [Some j] for a thread object whose [joinable()] is [j]. *)
Record ThreadInfo := {
  name : string;
  state : ThreadState;
  thread : option bool;
  body : Body
}.

Record Registry := {
  threads_ : list (option ThreadInfo);
  threadCounter_ : nat
}.

(** The constructor: no thread, counter 0. *)
Definition constructed : Registry := {| threads_ := []; threadCounter_ := 0 |}.

Definition to_string (n : nat) : string :=
  NilEmpty.string_of_uint (Nat.to_uint n).

Definition set_state (s : ThreadState) (info : ThreadInfo) : ThreadInfo :=
  {| name := name info; state := s; thread := thread info;
     body := body info |}.

Definition set_thread (t : option bool) (info : ThreadInfo) : ThreadInfo :=
  {| name := name info; state := state info; thread := t;
     body := body info |}.

Definition set_body (b : Body) (info : ThreadInfo) : ThreadInfo :=
  {| name := name info; state := state info; thread := thread info;
     body := b |}.

Definition store (i : nat) (info : ThreadInfo) (r : Registry) : Registry :=
  {| threads_ := <[i := Some info]> (threads_ r);
     threadCounter_ := threadCounter_ r |}.

(** [threadIndex >= threads_.size() || !threads_[threadIndex]] fails. *)
Definition entry (threadIndex : nat) (r : Registry) : option ThreadInfo :=
  match threads_ r !! threadIndex with
  | Some (Some info) => Some info
  | _ => None
  end.

(** [threadInfo->thread && threadInfo->thread->joinable()] *)
Definition joinable (info : ThreadInfo) : bool :=
  match thread info with
  | Some j => j
  | None => false
  end.

Definition createThread (name : string) (r : Registry) : nat * Registry :=
  let threadInfo :=
    {| name := match name with
               | EmptyString => "Thread-" ++ to_string (threadCounter_ r)
               | _ => name
               end;
       state := CREATED;
       thread := Some true;
       body := NotStarted |} in
  (length (threads_ r),
   {| threads_ := threads_ r ++ [Some threadInfo];
      threadCounter_ := S (threadCounter_ r) |}).

(** [join()] returns when the thread's lambda has finished; until then the
    call has no result ([None]). *)
Definition joinThread (threadIndex : nat) (r : Registry)
  : option (bool * Registry) :=
  match entry threadIndex r with
  | None => Some (false, r)
  | Some threadInfo =>
      if joinable threadInfo then
        match body threadInfo with
        | Finished =>
            Some (true,
                  store threadIndex
                    (set_state TERMINATED (set_thread (Some false) threadInfo))
                    r)
        | _ => None
        end
      else Some (false, r)
  end.

Definition detachThread (threadIndex : nat) (r : Registry) : bool * Registry :=
  match entry threadIndex r with
  | None => (false, r)
  | Some threadInfo =>
      if joinable threadInfo then
        (true, store threadIndex (set_thread (Some false) threadInfo) r)
      else (false, r)
  end.

Definition terminateThread (threadIndex : nat) (r : Registry)
  : bool * Registry :=
  match entry threadIndex r with
  | None => (false, r)
  | Some threadInfo =>
      if joinable threadInfo then
        (true, store threadIndex (set_state TERMINATED threadInfo) r)
      else (false, r)
  end.

Definition is_running (e : option ThreadInfo) : bool :=
  match e with
  | Some {| state := RUNNING |} => true
  | _ => false
  end.

Definition getActiveThreadCount (r : Registry) : nat :=
  length (List.filter is_running (threads_ r)).

Definition getTotalThreadCount (r : Registry) : nat := length (threads_ r).

Definition getThreadState (threadIndex : nat) (r : Registry) : ThreadState :=
  match entry threadIndex r with
  | None => TERMINATED
  | Some threadInfo => state threadInfo
  end.

Definition getThreadName (threadIndex : nat) (r : Registry) : string :=
  match entry threadIndex r with
  | None => ""
  | Some threadInfo => name threadInfo
  end.

(** [joinAll] joins every joinable thread in turn, holding the manager's
    mutex; it returns when the lambdas of all of them have finished. *)
Definition join_ready (e : option ThreadInfo) : bool :=
  match e with
  | Some threadInfo =>
      if joinable threadInfo then
        match body threadInfo with Finished => true | _ => false end
      else true
  | None => true
  end.

Definition join_one (e : option ThreadInfo) : option ThreadInfo :=
  match e with
  | Some threadInfo =>
      if joinable threadInfo then
        Some (set_state TERMINATED (set_thread (Some false) threadInfo))
      else e
  | None => None
  end.

Definition joinAll (r : Registry) : option Registry :=
  if forallb join_ready (threads_ r) then
    Some {| threads_ := map join_one (threads_ r);
            threadCounter_ := threadCounter_ r |}
  else None.

(** The two writes of the thread's lambda, before and after the task. *)
Definition body_start (i : nat) (r : Registry) : option Registry :=
  match entry i r with
  | Some threadInfo =>
      match body threadInfo with
      | NotStarted =>
          Some (store i (set_state RUNNING (set_body InTask threadInfo)) r)
      | _ => None
      end
  | None => None
  end.

Definition body_finish (i : nat) (r : Registry) : option Registry :=
  match entry i r with
  | Some threadInfo =>
      match body threadInfo with
      | InTask =>
          Some (store i (set_state TERMINATED (set_body Finished threadInfo)) r)
      | _ => None
      end
  | None => None
  end.

(** The calls of the manager's clients and the steps of the threads it
    started, in any order; a step is not enabled ([None]) where the call
    would still be waiting. *)
Inductive Action :=
| CreateThread (name : string)
| JoinThread (threadIndex : nat)
| DetachThread (threadIndex : nat)
| TerminateThread (threadIndex : nat)
| JoinAll
| BodyStart (i : nat)
| BodyFinish (i : nat).

Definition step (a : Action) (r : Registry) : option Registry :=
  match a with
  | CreateThread name => Some (snd (createThread name r))
  | JoinThread i => option_map snd (joinThread i r)
  | DetachThread i => Some (snd (detachThread i r))
  | TerminateThread i => Some (snd (terminateThread i r))
  | JoinAll => joinAll r
  | BodyStart i => body_start i r
  | BodyFinish i => body_finish i r
  end.

Fixpoint run (acts : list Action) (r : Registry) : option Registry :=
  match acts with
  | [] => Some r
  | a :: rest =>
      match step a r with
      | Some r' => run rest r'
      | None => None
      end
  end.

Definition in_task (e : option ThreadInfo) : bool :=
  match e with
  | Some {| body := InTask |} => true
  | _ => false
  end.

(** What a later step may change in an entry: not its name, and a thread
    object that is no longer joinable stays so. *)
Definition evolves (old new : ThreadInfo) : Prop :=
  name new = name old /\ (joinable old = false -> joinable new = false).

Definition honest (e : option ThreadInfo) : Prop :=
  forall info, e = Some info ->
    thread info <> None /\ (state info = RUNNING -> body info = InTask).

Definition registry_inv (r : Registry) : Prop :=
  threadCounter_ r = length (threads_ r) /\ Forall honest (threads_ r).

(** A registry with a finished thread "net" and a joined one of that kind
    are used as examples below. *)
Definition finished_thread : Registry :=
  Eval vm_compute in
    match run [CreateThread "net"; BodyStart 0; BodyFinish 0] constructed with
    | Some r => r
    | None => constructed
    end.

Definition joined_thread : Registry :=
  Eval vm_compute in
    match joinThread 0 finished_thread with
    | Some (_, r) => r
    | None => finished_thread
    end.

Definition joined_and_more : Registry :=
  Eval vm_compute in
    match run [CreateThread "disk"; TerminateThread 0; BodyStart 1]
              joined_thread with
    | Some r => r
    | None => joined_thread
    end.

Definition named_by_default : Registry :=
  Eval vm_compute in
    match run [BodyStart 1; JoinThread 0; BodyFinish 1]
              (snd (createThread "" finished_thread)) with
    | Some r => r
    | None => constructed
    end.

Definition one_detached : Registry :=
  Eval vm_compute in
    match run [CreateThread "net"; CreateThread "disk"; DetachThread 1;
               BodyStart 0; BodyFinish 0; BodyStart 1] constructed with
    | Some r => r
    | None => constructed
    end.

Definition all_joined : Registry :=
  Eval vm_compute in
    match joinAll one_detached with
    | Some r => r
    | None => one_detached
    end.

End ThreadRegistry.

(** ** io_bridge.cpp: the event queue and its single-flight drain *)
Module IOBridge.

Inductive EventType := STRING | INT | FLOAT | DOUBLE | BOOLEAN | BYTE_ARRAY.

(** The value an [Event] carries; [float] and [double] by their bits. *)
Inductive Payload :=
| StringValue (v : string)
| IntValue (v : Z)
| FloatValue (bits : Z)
| DoubleValue (bits : Z)
| BoolValue (v : bool)
| ByteArrayValue (v : list byte).

Record Event := { eventId : string; payload : Payload }.

Definition type (e : Event) : EventType :=
  match payload e with
  | StringValue _ => STRING
  | IntValue _ => INT
  | FloatValue _ => FLOAT
  | DoubleValue _ => DOUBLE
  | BoolValue _ => BOOLEAN
  | ByteArrayValue _ => BYTE_ARRAY
  end.

(** The fields of [IOBridge]; a pointer field is [true] when non-null. *)
Record Bridge := {
  jvm_ : bool;
  listenerObject_ : bool;
  listenerClass_ : bool;
  threadManager_ : bool;
  eventQueue_ : list Event;
  stopProcessing_ : bool;
  processingScheduled_ : bool
}.

Definition isInitialized (b : Bridge) : bool := jvm_ b && listenerObject_ b.

Definition set_eventQueue (q : list Event) (b : Bridge) : Bridge := {|
  jvm_ := jvm_ b; listenerObject_ := listenerObject_ b;
  listenerClass_ := listenerClass_ b; threadManager_ := threadManager_ b;
  eventQueue_ := q; stopProcessing_ := stopProcessing_ b;
  processingScheduled_ := processingScheduled_ b
|}.

Definition set_processingScheduled (f : bool) (b : Bridge) : Bridge := {|
  jvm_ := jvm_ b; listenerObject_ := listenerObject_ b;
  listenerClass_ := listenerClass_ b; threadManager_ := threadManager_ b;
  eventQueue_ := eventQueue_ b; stopProcessing_ := stopProcessing_ b;
  processingScheduled_ := f
|}.

(** The task a post submits,
    [[this]() { processEvents(); processingScheduled_ = false; }],
    by how far it has run: not started; inside the delivery loop of
    [processEvents] with these events of [eventsToProcess] left;
    [processEvents] returned and the store to the flag pending; finished. *)
Inductive DrainTask :=
| DrainEntry
| Delivering (eventsToProcess : list Event)
| AfterProcess
| TaskEnd.

Abbreviation Pool := (ThreadManager.Pool DrainTask).

(** [eventQueue_.push_back(std::move(event))] under [queueMutex_]. *)
Definition push_back (e : Event) (b : Bridge) : Bridge :=
  set_eventQueue (eventQueue_ b ++ [e]) b.

(** [processingScheduled_.compare_exchange_strong(expected = false, true)]:
    whether the exchange took place, and the bridge after it. *)
Definition compare_exchange (b : Bridge) : bool * Bridge :=
  if processingScheduled_ b then (false, b)
  else (true, set_processingScheduled true b).

(** The body shared by the six post functions, run without interruption. *)
Definition postEvent (e : Event) (st : Bridge * Pool) : Bridge * Pool :=
  let '(b, pool) := st in
  if negb (isInitialized b) then (b, pool)
  else
    let b := push_back e b in
    if threadManager_ b then
      let '(won, b) := compare_exchange b in
      if won then (b, ThreadManager.submitTask DrainEntry pool)
      else (b, pool)
    else (b, pool).

Definition postStringEvent (id data : string) :=
  postEvent {| eventId := id; payload := StringValue data |}.
Definition postIntEvent (id : string) (data : Z) :=
  postEvent {| eventId := id; payload := IntValue data |}.
Definition postFloatEvent (id : string) (data : Z) :=
  postEvent {| eventId := id; payload := FloatValue data |}.
Definition postDoubleEvent (id : string) (data : Z) :=
  postEvent {| eventId := id; payload := DoubleValue data |}.
Definition postBooleanEvent (id : string) (data : bool) :=
  postEvent {| eventId := id; payload := BoolValue data |}.
Definition postByteArrayEvent (id : string) (data : list byte) (length : nat) :=
  postEvent {| eventId := id; payload := ByteArrayValue (firstn length data) |}.

(** Where a producer thread stands inside a post: outside; after the
    locked [push_back]; after a compare-exchange that took place, about to
    call [submitTask]. *)
Inductive Producer := Idle | Pushed | Won.

(** The bridge, the pool it submits to, the producer threads, and the
    events handed to the callback sink, in order. *)
Record System := {
  bridge : Bridge;
  pool : Pool;
  producers : list Producer;
  sink : list Event
}.

Definition set_worker (i : nat) (w : ThreadManager.Worker DrainTask)
           (p : Pool) : Pool := {|
  ThreadManager.poolThreads_ := <[i := w]> (ThreadManager.poolThreads_ p);
  ThreadManager.taskQueue_ := ThreadManager.taskQueue_ p;
  ThreadManager.stopPool_ := ThreadManager.stopPool_ p;
  ThreadManager.activeTasks_ := ThreadManager.activeTasks_ p;
  ThreadManager.shutdown_pc := ThreadManager.shutdown_pc p;
  ThreadManager.accepted := ThreadManager.accepted p;
  ThreadManager.dequeuedBeforeStop := ThreadManager.dequeuedBeforeStop p;
  ThreadManager.executed := ThreadManager.executed p
|}.

(** The task worker [i] is running, if any. *)
Definition task_of (i : nat) (p : Pool) : option DrainTask :=
  match ThreadManager.poolThreads_ p !! i with
  | Some (ThreadManager.Running t) => Some t
  | _ => None
  end.

(** The atomic steps.  Producer [j]: [Post] is the test of
    [isInitialized] and the locked [push_back]; [Cas] the test of
    [threadManager_] and the compare-exchange; [Submit] the call of
    [submitTask].  Worker [i]: [Wake] is the locked block of
    [workerFunction]; [Swap] the entry of [processEvents] up to the locked
    move of the queue, [env] telling whether [getJNIEnv] gave an
    environment; [Deliver] one round of the delivery loop; [Finish] the
    return of [processEvents]; [Clear] the store
    [processingScheduled_ = false]; [Done] the return of the task. *)
Inductive Action :=
| Post (j : nat) (e : Event)
| Cas (j : nat)
| Submit (j : nat)
| Wake (i : nat)
| Swap (i : nat) (env : bool)
| Deliver (i : nat)
| Finish (i : nat)
| Clear (i : nat)
| Done (i : nat).

Definition with_bridge (b : Bridge) (s : System) : System :=
  {| bridge := b; pool := pool s; producers := producers s; sink := sink s |}.
Definition with_pool (p : Pool) (s : System) : System :=
  {| bridge := bridge s; pool := p; producers := producers s; sink := sink s |}.
Definition with_producer (j : nat) (q : Producer) (s : System) : System :=
  {| bridge := bridge s; pool := pool s;
     producers := <[j := q]> (producers s); sink := sink s |}.
Definition with_sink (k : list Event) (s : System) : System :=
  {| bridge := bridge s; pool := pool s; producers := producers s; sink := k |}.

(** The type-specific callback: nothing when either listener reference is
    null, else the event reaches the sink (a sink that has the callback
    method). *)
Definition invokeCallback (e : Event) (s : System) : System :=
  if listenerClass_ (bridge s) && listenerObject_ (bridge s)
  then with_sink (sink s ++ [e]) s
  else s.

Definition step (a : Action) (s : System) : option System :=
  match a with
  | Post j e =>
      match producers s !! j with
      | Some Idle =>
          if negb (isInitialized (bridge s)) then Some s
          else Some (with_producer j Pushed
                       (with_bridge (push_back e (bridge s)) s))
      | _ => None
      end
  | Cas j =>
      match producers s !! j with
      | Some Pushed =>
          if threadManager_ (bridge s) then
            let '(won, b) := compare_exchange (bridge s) in
            Some (with_producer j (if won then Won else Idle)
                    (with_bridge b s))
          else Some (with_producer j Idle s)
      | _ => None
      end
  | Submit j =>
      match producers s !! j with
      | Some Won =>
          Some (with_producer j Idle
                  (with_pool (ThreadManager.submitTask DrainEntry (pool s)) s))
      | _ => None
      end
  | Wake i =>
      match ThreadManager.worker_wake i (pool s) with
      | Some p => Some (with_pool p s)
      | None => None
      end
  | Swap i env =>
      match task_of i (pool s) with
      | Some DrainEntry =>
          if jvm_ (bridge s) && listenerObject_ (bridge s) && env
          then Some (with_pool
                       (set_worker i
                          (ThreadManager.Running
                             (Delivering (eventQueue_ (bridge s))))
                          (pool s))
                       (with_bridge (set_eventQueue [] (bridge s)) s))
          else Some (with_pool
                       (set_worker i (ThreadManager.Running AfterProcess)
                          (pool s)) s)
      | _ => None
      end
  | Deliver i =>
      match task_of i (pool s) with
      | Some (Delivering (e :: rest)) =>
          Some (with_pool
                  (set_worker i (ThreadManager.Running (Delivering rest))
                     (pool s))
                  (invokeCallback e s))
      | _ => None
      end
  | Finish i =>
      match task_of i (pool s) with
      | Some (Delivering []) =>
          Some (with_pool
                  (set_worker i (ThreadManager.Running AfterProcess) (pool s))
                  s)
      | _ => None
      end
  | Clear i =>
      match task_of i (pool s) with
      | Some AfterProcess =>
          Some (with_pool
                  (set_worker i (ThreadManager.Running TaskEnd) (pool s))
                  (with_bridge (set_processingScheduled false (bridge s)) s))
      | _ => None
      end
  | Done i =>
      match task_of i (pool s) with
      | Some TaskEnd =>
          match ThreadManager.worker_done i (pool s) with
          | Some p => Some (with_pool p s)
          | None => None
          end
      | _ => None
      end
  end.

Fixpoint run (acts : list Action) (s : System) : option System :=
  match acts with
  | [] => Some s
  | a :: acts' =>
      match step a s with
      | Some s' => run acts' s'
      | None => None
      end
  end.

(** An initialized bridge with a registered listener and a thread manager,
    a running pool of [workers] threads, and [threads] producer threads. *)
Definition initial (workers threads : nat) : System := {|
  bridge := {| jvm_ := true; listenerObject_ := true; listenerClass_ := true;
               threadManager_ := true; eventQueue_ := [];
               stopProcessing_ := false; processingScheduled_ := false |};
  pool := ThreadManager.initializeThreadPool workers;
  producers := replicate threads Idle;
  sink := []
|}.

(** A drain task counts as in flight from [submitTask] until its store to
    the flag: queued, or running and not yet past the store. *)
Definition worker_in_flight (w : ThreadManager.Worker DrainTask) : nat :=
  match w with
  | ThreadManager.Running TaskEnd => 0
  | ThreadManager.Running _ => 1
  | _ => 0
  end.

Definition drains_in_flight (s : System) : nat :=
  length (ThreadManager.taskQueue_ (pool s))
  + sum_list_with worker_in_flight (ThreadManager.poolThreads_ (pool s)).

Definition producer_won (q : Producer) : nat :=
  match q with Won => 1 | _ => 0 end.



(** The events of the posts of an interleaving, in the order of their
    [push_back]. *)
Definition posted_by (a : Action) : list Event :=
  match a with Post _ e => [e] | _ => [] end.
Definition posted (acts : list Action) : list Event := flat_map posted_by acts.

(** The drain tasks in flight together with the producers that have won
    the compare-exchange and not yet submitted. *)
Definition tokens (s : System) : nat :=
  drains_in_flight s + sum_list_with producer_won (producers s).

Definition single_flight_inv (s : System) : Prop :=
  (tokens s <= 1)%nat
  /\ (processingScheduled_ (bridge s) = false -> tokens s = 0%nat).


(** A bridge whose [initialize] has run but with no listener yet. *)
Definition bridge_without_listener : Bridge := {|
  jvm_ := true; listenerObject_ := false; listenerClass_ := false;
  threadManager_ := true; eventQueue_ := []; stopProcessing_ := false;
  processingScheduled_ := false
|}.

(** Two events to post. *)
Definition first_event : Event :=
  {| eventId := "socket_message"; payload := StringValue "first" |}.
Definition second_event : Event :=
  {| eventId := "socket_message"; payload := StringValue "second" |}.

(** One worker, one producer.  The producer posts [first_event]; the
    drain starts and moves the queue into its local vector. *)
Definition drain_started : list Action :=
  [Post 0 first_event; Cas 0; Submit 0; Wake 0; Swap 0 true].

(** The same producer then posts [second_event]: its compare-exchange
    finds the flag still set and schedules nothing; the drain delivers its
    snapshot, clears the flag and ends. *)
Definition post_during_drain : list Action :=
  drain_started
  ++ [Post 0 second_event; Cas 0; Deliver 0; Finish 0; Clear 0; Done 0].

(** The states the two runs end in. *)
Definition state_after (acts : list Action) : System :=
  match run acts (initial 1 1) with
  | Some s => s
  | None => initial 1 1
  end.
Definition draining : System := Eval vm_compute in state_after drain_started.
Definition stranded : System :=
  Eval vm_compute in state_after post_during_drain.



(** *** The life of the bridge *)

(** The two global references the bridge holds. *)
Inductive Ref := ListenerRef | ClassRef.

(** The JNI calls of the life-cycle functions, with their outcome. *)
Inductive JniCall :=
| NewGlobalRef (r : Ref) (ok : bool)
| DeleteGlobalRef (r : Ref)
| GetObjectClass (ok : bool)
| DeleteLocalRef.

(** What the JVM answers inside [registerListener]: whether
    [NewGlobalRef(listener)], [GetObjectClass] and
    [NewGlobalRef(localClass)] give a reference. *)
Record RegisterEnv := {
  listener_ref : bool;
  object_class : bool;
  class_ref : bool
}.

Definition set_listener (object class : bool) (b : Bridge) : Bridge := {|
  jvm_ := jvm_ b; listenerObject_ := object; listenerClass_ := class;
  threadManager_ := threadManager_ b; eventQueue_ := eventQueue_ b;
  stopProcessing_ := stopProcessing_ b;
  processingScheduled_ := processingScheduled_ b
|}.

(** The constructor. *)
Definition constructed : Bridge := {|
  jvm_ := false; listenerObject_ := false; listenerClass_ := false;
  threadManager_ := false; eventQueue_ := []; stopProcessing_ := false;
  processingScheduled_ := false
|}.

(** [initialize(jvm)]; [jvm] tells whether the pointer is non-null. *)
Definition initialize (jvm : bool) (b : Bridge) : Bridge :=
  if jvm_ b then b
  else {|
    jvm_ := jvm; listenerObject_ := listenerObject_ b;
    listenerClass_ := listenerClass_ b; threadManager_ := threadManager_ b;
    eventQueue_ := eventQueue_ b; stopProcessing_ := false;
    processingScheduled_ := processingScheduled_ b
  |}.

Definition setThreadManager (threadManager : bool) (b : Bridge) : Bridge := {|
  jvm_ := jvm_ b; listenerObject_ := listenerObject_ b;
  listenerClass_ := listenerClass_ b; threadManager_ := threadManager;
  eventQueue_ := eventQueue_ b; stopProcessing_ := stopProcessing_ b;
  processingScheduled_ := processingScheduled_ b
|}.

(** [unregisterListener(env)]; [env] tells whether the pointer is
    non-null. *)
Definition unregisterListener (env : bool) (b : Bridge)
  : Bridge * list JniCall :=
  if negb env then (b, [])
  else
    (set_listener false false b,
     (if listenerObject_ b then [DeleteGlobalRef ListenerRef] else [])
     ++ (if listenerClass_ b then [DeleteGlobalRef ClassRef] else [])).

(** [registerListener(env, listener)]; [env] is [None] for a null
    pointer. *)
Definition registerListener (env : option RegisterEnv) (b : Bridge)
  : Bridge * list JniCall :=
  match env with
  | None => (b, [])
  | Some env =>
      if negb (jvm_ b) then (b, [])
      else
        let '(b, calls) := unregisterListener true b in
        if negb (listener_ref env)
        then (b, calls ++ [NewGlobalRef ListenerRef false])
        else if negb (object_class env)
        then (b, calls ++ [NewGlobalRef ListenerRef true; GetObjectClass false;
                           DeleteGlobalRef ListenerRef])
        else if negb (class_ref env)
        then (b, calls ++ [NewGlobalRef ListenerRef true; GetObjectClass true;
                           NewGlobalRef ClassRef false; DeleteLocalRef;
                           DeleteGlobalRef ListenerRef])
        else (set_listener true true b,
              calls ++ [NewGlobalRef ListenerRef true; GetObjectClass true;
                        NewGlobalRef ClassRef true; DeleteLocalRef])
  end.

(** [cleanup()]; [env] tells whether [getJNIEnv] gives an environment.
    With none and a class reference held, [env->DeleteGlobalRef] is a call
    through a null pointer: there is no result ([None]). *)
Definition cleanup (env : bool) (b : Bridge) : option (Bridge * list JniCall) :=
  let released :=
    if jvm_ b && listenerObject_ b then
      if env then
        Some (set_listener false false b,
              DeleteGlobalRef ListenerRef
              :: if listenerClass_ b then [DeleteGlobalRef ClassRef] else [])
      else if listenerClass_ b then None
      else Some (b, [])
    else Some (b, []) in
  match released with
  | None => None
  | Some (b, calls) =>
      Some ({| jvm_ := false; listenerObject_ := listenerObject_ b;
               listenerClass_ := listenerClass_ b;
               threadManager_ := threadManager_ b; eventQueue_ := [];
               stopProcessing_ := true; processingScheduled_ := false |},
            calls)
  end.

(** The life-cycle calls of the bridge's owner, in any order. *)
Inductive Call :=
| Initialize (jvm : bool)
| SetThreadManager (threadManager : bool)
| RegisterListener (env : option RegisterEnv)
| UnregisterListener (env : bool)
| Cleanup (env : bool).

Definition call (c : Call) (b : Bridge) : option (Bridge * list JniCall) :=
  match c with
  | Initialize jvm => Some (initialize jvm b, [])
  | SetThreadManager threadManager => Some (setThreadManager threadManager b, [])
  | RegisterListener env => Some (registerListener env b)
  | UnregisterListener env => Some (unregisterListener env b)
  | Cleanup env => cleanup env b
  end.

(** A sequence of calls, with the JNI calls it makes in all. *)
Fixpoint calls (cs : list Call) (b : Bridge) : option (Bridge * list JniCall) :=
  match cs with
  | [] => Some (b, [])
  | c :: rest =>
      match call c b with
      | Some (b', made) =>
          match calls rest b' with
          | Some (b'', made') => Some (b'', made ++ made')
          | None => None
          end
      | None => None
      end
  end.

(** The global references created, deleted and held. *)
Definition created (c : JniCall) : nat :=
  match c with NewGlobalRef _ true => 1 | _ => 0 end.
Definition deleted (c : JniCall) : nat :=
  match c with DeleteGlobalRef _ => 1 | _ => 0 end.
Definition held (b : Bridge) : nat :=
  (if listenerObject_ b then 1 else 0) + (if listenerClass_ b then 1 else 0).

Definition refs_inv (b : Bridge) : Prop :=
  listenerObject_ b = listenerClass_ b
  /\ (listenerObject_ b = true -> jvm_ b = true).

(** A JVM that grants every reference, and a bridge set up with it. *)
Definition granting : RegisterEnv :=
  {| listener_ref := true; object_class := true; class_ref := true |}.

Definition set_up : list Call :=
  [Initialize true; SetThreadManager true; RegisterListener (Some granting);
   RegisterListener (Some granting)].

Definition registered : Bridge :=
  Eval vm_compute in
    match calls set_up constructed with
    | Some (b, _) => b
    | None => constructed
    end.

End IOBridge.

(** ** socket_manager.cpp: the broadcast server *)
Module SocketManager.
Import Char8.

Definition MAX_CLIENTS : Z := 10.
Definition BUFFER_SIZE : Z := 4096.

(** Threads are told apart by an identifier. *)
Definition ThreadId := nat.

(** A [ClientConnection]; [handlerThread] is [Some t] while the
    [std::thread] member is joinable and stands for thread [t]. *)
Record ClientConnection := {
  socketFd : Z;
  handlerThread : option ThreadId;
  isConnected : bool
}.

(** The fields of [SocketManager]; a pointer field is [true] when
    non-null, an entry of [clients_] is [None] for a null [unique_ptr]. *)
Record Server := {
  serverSocket_ : Z;
  isRunning_ : bool;
  port_ : Z;
  clients_ : list (option ClientConnection);
  sendQueue_ : list (list ascii);
  stopSending_ : bool;
  threadManager_ : bool;
  ioBridge_ : bool;
  acceptThread_ : option ThreadId;
  sendThread_ : option ThreadId
}.

(** The calls that leave the object, logged in order. *)
Inductive Effect :=
| ESocket
| ESetsockopt (fd : Z)
| EBind (fd port : Z)
| EListen (fd backlog : Z)
| EClose (fd : Z)
| ESpawn (t : ThreadId)
| EJoin (t : ThreadId)
| ENotifyOne
| ESend (fd : Z) (bytes : list ascii)
| EPostString (id : string) (data : list ascii)
| EPostInt (id : string) (data : Z).

(** How a call ends: by returning, or by a [std::system_error] that leaves
    it. *)
Inductive Outcome := Returned | SystemError.

Definition set_clients (cs : list (option ClientConnection)) (st : Server)
  : Server := {|
  serverSocket_ := serverSocket_ st; isRunning_ := isRunning_ st;
  port_ := port_ st; clients_ := cs; sendQueue_ := sendQueue_ st;
  stopSending_ := stopSending_ st; threadManager_ := threadManager_ st;
  ioBridge_ := ioBridge_ st; acceptThread_ := acceptThread_ st;
  sendThread_ := sendThread_ st
|}.

Definition set_sendQueue (q : list (list ascii)) (st : Server) : Server := {|
  serverSocket_ := serverSocket_ st; isRunning_ := isRunning_ st;
  port_ := port_ st; clients_ := clients_ st; sendQueue_ := q;
  stopSending_ := stopSending_ st; threadManager_ := threadManager_ st;
  ioBridge_ := ioBridge_ st; acceptThread_ := acceptThread_ st;
  sendThread_ := sendThread_ st
|}.

Definition set_serverSocket (fd : Z) (st : Server) : Server := {|
  serverSocket_ := fd; isRunning_ := isRunning_ st;
  port_ := port_ st; clients_ := clients_ st; sendQueue_ := sendQueue_ st;
  stopSending_ := stopSending_ st; threadManager_ := threadManager_ st;
  ioBridge_ := ioBridge_ st; acceptThread_ := acceptThread_ st;
  sendThread_ := sendThread_ st
|}.

(** What the system answers to the calls of [startServer]: the return
    values of [socket], [setsockopt], [bind] and [listen], and the two
    threads it starts. *)
Record StartEnv := {
  socket_ret : Z;
  setsockopt_ret : Z;
  bind_ret : Z;
  listen_ret : Z;
  accept_thread : ThreadId;
  send_thread : ThreadId
}.

Definition startServer (env : StartEnv) (port : Z) (st : Server)
  : bool * Server * list Effect :=
  if isRunning_ st then (false, st, [])
  else
    let fd := socket_ret env in
    if fd <? 0 then (false, set_serverSocket fd st, [ESocket])
    else if setsockopt_ret env <? 0 then
      (false, set_serverSocket (-1) st, [ESocket; ESetsockopt fd; EClose fd])
    else if bind_ret env <? 0 then
      (false, set_serverSocket (-1) st,
       [ESocket; ESetsockopt fd; EBind fd port; EClose fd])
    else if listen_ret env <? 0 then
      (false, set_serverSocket (-1) st,
       [ESocket; ESetsockopt fd; EBind fd port; EListen fd MAX_CLIENTS;
        EClose fd])
    else
      (true,
       {| serverSocket_ := fd; isRunning_ := true; port_ := port;
          clients_ := clients_ st; sendQueue_ := sendQueue_ st;
          stopSending_ := false; threadManager_ := threadManager_ st;
          ioBridge_ := ioBridge_ st;
          acceptThread_ := Some (accept_thread env);
          sendThread_ := Some (send_thread env) |},
       [ESocket; ESetsockopt fd; EBind fd port; EListen fd MAX_CLIENTS;
        ESpawn (accept_thread env); ESpawn (send_thread env)]).

(** [getConnectedClientCount] *)
Definition counts (c : option ClientConnection) : bool :=
  match c with Some c => isConnected c | None => false end.
Definition getConnectedClientCount (st : Server) : nat :=
  length (filter counts (clients_ st)).

(** [notifyConnectionChange] *)
Definition notifyConnectionChange (st : Server) : list Effect :=
  if ioBridge_ st
  then [EPostInt "socket_client_count" (Z.of_nat (getConnectedClientCount st))]
  else [].

(** The body of [acceptConnections] once [accept] has returned the
    descriptor [clientSocket] (not negative) on a running server; [t] is the
    thread started to run [handleClient] for it. *)
Definition acceptConnection (clientSocket : Z) (t : ThreadId) (st : Server)
  : Server * list Effect :=
  if MAX_CLIENTS <=? Z.of_nat (length (clients_ st))
  then (st, [EClose clientSocket])
  else
    let client := {| socketFd := clientSocket; handlerThread := Some t;
                     isConnected := true |} in
    let st := set_clients (clients_ st ++ [Some client]) st in
    (st, ESpawn t :: notifyConnectionChange st).

(** The locked loop of [removeClient]: the first entry with this
    descriptor is marked disconnected, moved out and erased. *)
Fixpoint detach (fd : Z) (clients : list (option ClientConnection))
  : option ClientConnection * list (option ClientConnection) :=
  match clients with
  | [] => (None, [])
  | Some c :: rest =>
      if socketFd c =? fd
      then (Some {| socketFd := socketFd c; handlerThread := handlerThread c;
                    isConnected := false |}, rest)
      else let '(found, rest') := detach fd rest in (found, Some c :: rest')
  | None :: rest =>
      let '(found, rest') := detach fd rest in (found, None :: rest')
  end.

(** [removeClient(socketFd)] run by thread [self].  [std::thread::join]
    called on the calling thread's own [std::thread] fails with
    [std::system_error] (resource_deadlock_would_occur); nothing in
    [removeClient] catches it, so what follows the [join] is not run. *)
Definition removeClient (self : ThreadId) (fd : Z) (st : Server)
  : Server * list Effect * Outcome :=
  let '(clientToRemove, clients) := detach fd (clients_ st) in
  let st := set_clients clients st in
  match clientToRemove with
  | None => (st, [], Returned)
  | Some c =>
      let closing := if 0 <=? socketFd c then [EClose (socketFd c)] else [] in
      match handlerThread c with
      | Some t =>
          if Nat.eqb t self then (st, closing, SystemError)
          else (st, closing ++ EJoin t :: notifyConnectionChange st, Returned)
      | None => (st, closing ++ notifyConnectionChange st, Returned)
      end
  end.


(** The four bytes in memory of [htonl(static_cast<uint32_t>(n))]. *)
Definition htonl_bytes (n : Z) : list ascii :=
  let n := n mod 4294967296 in
  [to_char (n / 16777216); to_char (n / 65536); to_char (n / 256); to_char n].

(** [ntohl] of the four bytes received. *)
Definition ntohl_bytes (bytes : list ascii) : Z :=
  match bytes with
  | [a; b; c; d] =>
      uchar a * 16777216 + uchar b * 65536 + uchar c * 256 + uchar d
  | _ => 0
  end.

Definition first_z (n : Z) (l : list ascii) : list ascii :=
  firstn (Z.to_nat n) l.
Definition skip_z (n : Z) (l : list ascii) : list ascii :=
  skipn (Z.to_nat n) l.

(** The loop [while (totalSent < messageSize)] of [sendWorker] on one
    socket.  [script] lists what the successive calls of [send] return;
    [wire] collects the bytes the socket took.  The result tells whether
    the socket goes to [toRemove]; [None] is a script that ends before the
    loop does. *)
Fixpoint send_payload (script : list Z) (message : list ascii)
         (totalSent : Z) (wire : list ascii) : option (list ascii * bool) :=
  if totalSent <? Z.of_nat (length message) then
    match script with
    | [] => None
    | sent :: script' =>
        if sent <? 0 then Some (wire, true)
        else send_payload script' message (totalSent + sent)
               (wire ++ first_z sent (skip_z totalSent message))
    end
  else Some (wire, false).

(** One round of [for (int socketFd : clientSockets)]: the length prefix,
    then the payload. *)
Definition send_frame (script : list Z) (message : list ascii)
  : option (list ascii * bool) :=
  let messageLen := htonl_bytes (Z.of_nat (length message)) in
  match script with
  | [] => None
  | sent :: script' =>
      if negb (sent =? 4) then Some (first_z sent messageLen, true)
      else send_payload script' message 0 messageLen
  end.

(** The copy of the client list [sendWorker] takes under the lock. *)
Definition snapshot (clients : list (option ClientConnection)) : list Z :=
  flat_map
    (fun c =>
       match c with
       | Some c =>
           if isConnected c && (0 <=? socketFd c) then [socketFd c] else []
       | None => []
       end)
    clients.

(** What one message puts on each socket of the snapshot; [net fd] is the
    script of the socket [fd]. *)
Definition transmissions (net : Z -> list Z) (message : list ascii)
           (st : Server) : list (Z * option (list ascii * bool)) :=
  map (fun fd => (fd, send_frame (net fd) message)) (snapshot (clients_ st)).

(** [for (int fd : toRemove) removeClient(fd)], run by thread [self]. *)
Fixpoint remove_all (self : ThreadId) (toRemove : list Z) (st : Server)
  : Server * list Effect * Outcome :=
  match toRemove with
  | [] => (st, [], Returned)
  | fd :: rest =>
      match removeClient self fd st with
      | (st', effects, Returned) =>
          let '(st'', effects', outcome) := remove_all self rest st' in
          (st'', effects ++ effects', outcome)
      | failed => failed
      end
  end.

(** One round of the loop of [sendWorker], run by thread [self], with a
    message waiting: the message is taken from the queue, sent to every
    socket of the snapshot, and the sockets whose writes fell short or
    failed are removed.  [None] is an empty queue (the thread waits or
    leaves) or a script that ends too early. *)
Definition sendWorker_round (self : ThreadId) (net : Z -> list Z) (st : Server)
  : option (Server * list Effect * Outcome) :=
  match sendQueue_ st with
  | [] => None
  | message :: queue =>
      let st := set_sendQueue queue st in
      let sent := transmissions net message st in
      if forallb (fun r => match snd r with Some _ => true | None => false end)
           sent
      then
        let writes :=
          flat_map (fun r => match snd r with
                             | Some (wire, _) => [ESend (fst r) wire]
                             | None => []
                             end) sent in
        let toRemove :=
          flat_map (fun r => match snd r with
                             | Some (_, true) => [fst r]
                             | _ => []
                             end) sent in
        let '(st', effects, outcome) := remove_all self toRemove st in
        Some (st', writes ++ effects, outcome)
      else None
  end.

(** The bytes a run of [send] calls took in all. *)
Definition total (chunks : list Z) : Z := fold_right Z.add 0 chunks.

(** The sentence of the design under test: a message of [BUFFER_SIZE]
    bytes or more never goes out as one frame. *)
Definition oversize_never_one_frame : Prop :=
  forall (script : list Z) (message : list ascii),
    BUFFER_SIZE <= Z.of_nat (length message) ->
    send_frame script message
    <> Some (htonl_bytes (Z.of_nat (length message)) ++ message, false).

(** What [recv] gives: its return value and the bytes it stored. *)
Record Recv := { received : Z; data : list ascii }.

(** Where [handleClient] stands when it calls [recv]: for the length
    prefix, or inside [while (totalReceived < messageLen)]. *)
Inductive Reading :=
| Prefix
| Body (messageLen totalReceived : Z) (buffer : list ascii).

(** The loop of [handleClient] on a running server, driven by the results
    of its [recv] calls: the [socket_message] events forwarded before the
    loop is left; [None] when the script ends with the loop still waiting
    in [recv]. *)
Fixpoint reader_loop (script : list Recv) (at_ : Reading) (bridge : bool)
         (posted : list Effect) : option (list Effect) :=
  match script with
  | [] => None
  | r :: script' =>
      match at_ with
      | Prefix =>
          if negb (received r =? 4) then Some posted
          else
            let messageLen := ntohl_bytes (first_z 4 (data r)) in
            if (messageLen =? 0) || (BUFFER_SIZE <? messageLen)
            then Some posted
            else reader_loop script' (Body messageLen 0 []) bridge posted
      | Body messageLen totalReceived buffer =>
          if received r <=? 0 then Some posted
          else
            let buffer := buffer ++ first_z (received r) (data r) in
            let totalReceived := totalReceived + received r in
            if totalReceived <? messageLen
            then reader_loop script' (Body messageLen totalReceived buffer)
                   bridge posted
            else
              reader_loop script' Prefix bridge
                (posted ++
                 if bridge
                 then [EPostString "socket_message" (first_z messageLen buffer)]
                 else [])
      end
  end.

(** [handleClient(clientSocket)], run by thread [self]: the loop, then
    [removeClient(clientSocket)] on the same thread. *)
Definition handleClient (self : ThreadId) (clientSocket : Z)
           (script : list Recv) (st : Server)
  : option (Server * list Effect * Outcome) :=
  match
    if isRunning_ st then reader_loop script Prefix (ioBridge_ st) []
    else Some []
  with
  | None => None
  | Some posted =>
      let '(st', effects, outcome) := removeClient self clientSocket st in
      Some (st', posted ++ effects, outcome)
  end.

(** The descriptors in the client list. *)
Definition descriptors (clients : list (option ClientConnection)) : list Z :=
  flat_map (fun c => match c with Some c => [socketFd c] | None => [] end)
    clients.

(** A running server on descriptor 3 with two clients. *)
Definition two_clients : Server := {|
  serverSocket_ := 3; isRunning_ := true; port_ := 9000;
  clients_ :=
    [Some {| socketFd := 7; handlerThread := Some 1%nat; isConnected := true |};
     Some {| socketFd := 8; handlerThread := Some 2%nat; isConnected := true |}];
  sendQueue_ := []; stopSending_ := false;
  threadManager_ := true; ioBridge_ := true;
  acceptThread_ := Some 10%nat; sendThread_ := Some 11%nat
|}.

(** A system that would grant a second listening socket. *)
Definition fresh_socket : StartEnv := {|
  socket_ret := 4; setsockopt_ret := 0; bind_ret := 0; listen_ret := 0;
  accept_thread := 12%nat; send_thread := 13%nat
|}.

(** A running server with no client yet. *)
Definition listening : Server := {|
  serverSocket_ := 3; isRunning_ := true; port_ := 9000;
  clients_ := []; sendQueue_ := []; stopSending_ := false;
  threadManager_ := true; ioBridge_ := true;
  acceptThread_ := Some 10%nat; sendThread_ := Some 11%nat
|}.
(** The same server once it has accepted descriptor 7 and started
    thread 1 to read from it. *)
Definition one_client : Server := fst (acceptConnection 7 1%nat listening).

(** A length prefix of zero: [recv] returns 4 and stores four zero bytes. *)
Definition zero_length_prefix : Recv :=
  {| received := 4; data := [zero; zero; zero; zero] |}.

(** A payload of five bytes. *)
Definition hello : list ascii := list_ascii_of_string "hello".


(** The client list changes in two places: where [acceptConnections] has a
    new descriptor from [accept] (the system hands out no descriptor that
    is still open, and those in the list are), and in [removeClient]. *)
Inductive Change :=
| Accepted (clientSocket : Z) (t : ThreadId)
| Removed (self : ThreadId) (fd : Z).

Definition change (c : Change) (st : Server) : option Server :=
  match c with
  | Accepted clientSocket t =>
      if (0 <=? clientSocket)
         && negb (existsb (Z.eqb clientSocket) (descriptors (clients_ st)))
      then Some (fst (acceptConnection clientSocket t st))
      else None
  | Removed self fd => Some (fst (fst (removeClient self fd st)))
  end.

Fixpoint changes (cs : list Change) (st : Server) : option Server :=
  match cs with
  | [] => Some st
  | c :: rest =>
      match change c st with
      | Some st' => changes rest st'
      | None => None
      end
  end.

(** What every entry of the client list is like between those changes. *)
Definition live (c : option ClientConnection) : Prop :=
  exists fd t,
    c = Some {| socketFd := fd; handlerThread := Some t; isConnected := true |}
    /\ 0 <= fd.

Definition clients_inv (st : Server) : Prop :=
  Z.of_nat (length (clients_ st)) <= MAX_CLIENTS
  /\ List.NoDup (descriptors (clients_ st))
  /\ Forall live (clients_ st).

(** How [stopServer] ends: by returning, or in [std::terminate]. *)
Inductive Ending := Return | Terminate.

(** The calls [stopServer] makes. *)
Inductive StopCall :=
| SClose (fd : Z)
| SNotifyAll
| SJoin (t : ThreadId).

Definition joinable (c : option ClientConnection) : bool :=
  match c with
  | Some {| handlerThread := Some _ |} => true
  | _ => false
  end.

Definition close_client (c : option ClientConnection) : list StopCall :=
  match c with
  | Some c => if 0 <=? socketFd c then [SClose (socketFd c)] else []
  | None => []
  end.

Definition disconnect (c : option ClientConnection)
  : option ClientConnection :=
  match c with
  | Some c =>
      if 0 <=? socketFd c
      then Some {| socketFd := socketFd c; handlerThread := handlerThread c;
                   isConnected := false |}
      else Some c
  | None => None
  end.

Definition join_thread (t : option ThreadId) : list StopCall :=
  match t with
  | Some t => [SJoin t]
  | None => []
  end.

(** [stopServer], called by a thread that is neither the accept nor the
    send thread.  [clients_.clear()] destroys the connections; the
    destructor of a [std::thread] that is still joinable calls
    [std::terminate], and then nothing of what follows is run. *)
Definition stopServer (st : Server) : Server * list StopCall * Ending :=
  if negb (isRunning_ st) then (st, [], Return)
  else
    let closing :=
      (if 0 <=? serverSocket_ st then [SClose (serverSocket_ st)] else [])
      ++ flat_map close_client (clients_ st) in
    if existsb joinable (clients_ st) then
      ({| serverSocket_ := if 0 <=? serverSocket_ st then -1
                           else serverSocket_ st;
          isRunning_ := false; port_ := port_ st;
          clients_ := map disconnect (clients_ st);
          sendQueue_ := sendQueue_ st; stopSending_ := true;
          threadManager_ := threadManager_ st; ioBridge_ := ioBridge_ st;
          acceptThread_ := acceptThread_ st; sendThread_ := sendThread_ st |},
       closing, Terminate)
    else
      ({| serverSocket_ := if 0 <=? serverSocket_ st then -1
                           else serverSocket_ st;
          isRunning_ := false; port_ := port_ st;
          clients_ := [];
          sendQueue_ := sendQueue_ st; stopSending_ := true;
          threadManager_ := threadManager_ st; ioBridge_ := ioBridge_ st;
          acceptThread_ := None; sendThread_ := None |},
       closing ++ SNotifyAll :: join_thread (acceptThread_ st)
               ++ join_thread (sendThread_ st),
       Return).

(** The server once [changes] has brought three clients and taken one
    away. *)
Definition comings_and_goings : list Change :=
  [Accepted 7 1%nat; Accepted 8 2%nat; Removed 11%nat 7; Accepted 7 3%nat].

Definition three_came_one_left : Server :=
  Eval vm_compute in
    match changes comings_and_goings listening with
    | Some st => st
    | None => listening
    end.


End SocketManager.

(** ** native-lib.cpp: the pool [initThreadManager] starts *)
Module NativeLib.

(** [threadCount] as [initThreadManager] computes it from what
    [std::thread::hardware_concurrency()] returned; both are
    [unsigned int], so [threadCount + 1] wraps at 2^32. *)
Definition threadCount (hardware_concurrency : Z) : Z :=
  if hardware_concurrency =? 0 then 4
  else Z.min ((hardware_concurrency + 1) mod 4294967296) 8.

(** The pool after [initThreadManager]: a new manager with a pool of
    [threadCount] workers when [g_threadManager] is null, the manager there
    is otherwise. *)
Definition initThreadManager {Task : Type}
           (g_threadManager : option (ThreadManager.Pool Task))
           (hardware_concurrency : Z) : ThreadManager.Pool Task :=
  match g_threadManager with
  | Some manager => manager
  | None =>
      ThreadManager.initializeThreadPool
        (Z.to_nat (threadCount hardware_concurrency))
  end.

End NativeLib.

(* ===================================================================== *)
(** * Part II: properties                                                  *)
(* ===================================================================== *)

Section Char8Facts.
Import Char8.

Lemma uchar_range (c : ascii) : 0 <= uchar c < 256.
Proof.
  unfold uchar. pose proof (N_ascii_bounded c) as H. lia.
Qed.

Lemma to_char_uchar (c : ascii) : to_char (uchar c) = c.
Proof.
  unfold to_char. rewrite Z.mod_small by apply uchar_range.
  unfold uchar. rewrite N2Z.id. apply ascii_N_embedding.
Qed.

Lemma uchar_to_char (z : Z) : uchar (to_char z) = z mod 256.
Proof.
  unfold uchar, to_char.
  assert (0 <= z mod 256 < 256) as Hr by (apply Z.mod_pos_bound; lia).
  rewrite N_ascii_embedding by lia. lia.
Qed.

Lemma to_char_of (z : Z) (c : ascii) : z = uchar c -> to_char z = c.
Proof. intros ->. apply to_char_uchar. Qed.

End Char8Facts.

Section MessageEncryptionFacts.
Import Char8 MessageEncryption.

Example base64Encode_hello :
  base64Encode (list_ascii_of_string "hello") = list_ascii_of_string "aGVsbG8=".
Proof. vm_compute. reflexivity. Qed.

Example base64Decode_hello :
  base64Decode (list_ascii_of_string "aGVsbG8=") = list_ascii_of_string "hello".
Proof. vm_compute. reflexivity. Qed.

Example decrypt_encrypt_sample :
  decryptMessage (encryptMessage (list_ascii_of_string "Fluxor: hello, world!!"))
  = list_ascii_of_string "Fluxor: hello, world!!".
Proof. vm_compute. reflexivity. Qed.


(** *** Characters and 32-bit arithmetic *)

Lemma lxor_byte_range (a b : Z) :
  0 <= a < 256 -> 0 <= b < 256 -> 0 <= Z.lxor a b < 256.
Proof.
  intros Ha Hb. split; [apply Z.lxor_nonneg; lia|].
  destruct (Z.eq_dec (Z.lxor a b) 0) as [->|Hnz]; [lia|].
  assert (0 < Z.lxor a b) as Hpos
    by (assert (0 <= Z.lxor a b) by (apply Z.lxor_nonneg; lia); lia).
  change 256 with (2 ^ 8). apply Z.log2_lt_pow2; [exact Hpos|].
  pose proof (Z.log2_lxor a b ltac:(lia) ltac:(lia)) as Hl.
  assert (Z.log2 a < 8) as Hla.
  { destruct (Z.eq_dec a 0) as [->|]; [simpl; lia|].
    apply Z.log2_lt_pow2; simpl; lia. }
  assert (Z.log2 b < 8) as Hlb.
  { destruct (Z.eq_dec b 0) as [->|]; [simpl; lia|].
    apply Z.log2_lt_pow2; simpl; lia. }
  lia.
Qed.

Lemma wrap32_congr (v : Z) : exists k, wrap32 v = v + 4294967296 * k.
Proof.
  unfold wrap32. exists (- ((v + 2147483648) / 4294967296)).
  Z.div_mod_to_equations. lia.
Qed.

(** Turns shifts and masks into [/] and [mod], forgets the multiples of
    2^32 that [wrap32] adds, and leaves linear arithmetic. *)
Ltac forget_wrap32 :=
  repeat match goal with
  | |- context [wrap32 ?v] =>
      let k := fresh "k" in
      let E := fresh "E" in
      destruct (wrap32_congr v) as [k E]; rewrite E in *; clear E
  end.

Ltac bits_to_arith :=
  change 63 with (Z.ones 6); change 255 with (Z.ones 8);
  rewrite ?Z.land_ones by lia;
  rewrite ?Z.shiftr_div_pow2 by lia;
  rewrite ?Z.shiftl_mul_pow2 by lia;
  change (2 ^ 0) with 1; change (2 ^ 2) with 4; change (2 ^ 4) with 16;
  change (2 ^ 6) with 64; change (2 ^ 8) with 256;
  forget_wrap32;
  Z.div_mod_to_equations; lia.

(** *** The XOR layer is an involution *)

Lemma xor_char_twice (c k : ascii) :
  to_char (Z.lxor (uchar (to_char (Z.lxor (uchar c) (uchar k)))) (uchar k)) = c.
Proof.
  pose proof (uchar_range c) as Hc. pose proof (uchar_range k) as Hk.
  rewrite uchar_to_char.
  rewrite (Z.mod_small (Z.lxor _ _)) by (apply lxor_byte_range; assumption).
  rewrite Z.lxor_assoc, Z.lxor_nilpotent, Z.lxor_0_r.
  apply to_char_uchar.
Qed.

Lemma xor_loop_involutive (message : list ascii) :
  forall i, xor_loop i (xor_loop i message) = message.
Proof.
  induction message as [|c rest IH]; intros i; simpl; [reflexivity|].
  rewrite xor_char_twice, IH. reflexivity.
Qed.

Lemma xor_loop_length (message : list ascii) :
  forall i, length (xor_loop i message) = length message.
Proof.
  induction message as [|c rest IH]; intros i; simpl; [reflexivity|].
  now rewrite IH.
Qed.

(** *** The base64 loops, three bytes at a time *)

Lemma list_ind3 {A} (P : list A -> Prop) :
  P [] -> (forall a, P [a]) -> (forall a b, P [a; b]) ->
  (forall a b c l, P l -> P (a :: b :: c :: l)) ->
  forall l, P l.
Proof.
  intros H0 H1 H2 H3 l.
  assert (P l /\ (forall a, P (a :: l)) /\ (forall a b, P (a :: b :: l))) as H;
    [|tauto].
  induction l as [|x l (IH0 & IH1 & IH2)]; auto.
Qed.

Lemma pad_loop_unfold (fuel : nat) (output : list ascii) :
  pad_loop (S fuel) output
  = if (length output mod 4 =? 0)%nat then output
    else pad_loop fuel (output ++ ["="%char]).
Proof. reflexivity. Qed.

Lemma emit_loop_exits (fuel : nat) :
  forall val valb output,
    (Z.to_nat (valb + 1) <= fuel)%nat ->
    fst (emit_loop fuel val valb output) < 0.
Proof.
  induction fuel as [|fuel IH]; intros val valb output Hf; simpl.
  - lia.
  - destruct (0 <=? valb) eqn:E; simpl.
    + apply IH. apply Z.leb_le in E. lia.
    + apply Z.leb_gt in E. exact E.
Qed.

(** The fuel [encode_step] gives the inner loop is never used up: the loop
    is left with [valb < 0], through its own condition. *)
Lemma encode_step_leaves_emit_loop (c : ascii) (st : Z * Z * list ascii) :
  snd (fst (encode_step c st)) < 0.
Proof.
  destruct st as [[val valb] output]. unfold encode_step.
  pose proof (emit_loop_exits (emit_fuel (valb + 8))
                (wrap32 (Z.shiftl val 8 + uchar c)) (valb + 8) output) as H.
  destruct (emit_loop _ _ _ _) as [valb' output']. simpl in *.
  apply H. unfold emit_fuel. lia.
Qed.

(** Four units of fuel take [pad_loop] to a length that is a multiple of
    four, that is, out through its own condition. *)
Lemma pad_loop_exits (fuel : nat) :
  forall output,
    (length output mod 4 = 0 \/ 4 - length output mod 4 <= fuel)%nat ->
    (length (pad_loop fuel output) mod 4 = 0)%nat.
Proof.
  induction fuel as [|fuel IH]; intros output H.
  - pose proof (Nat.mod_upper_bound (length output) 4 ltac:(lia)).
    cbn [pad_loop]. lia.
  - rewrite pad_loop_unfold.
    destruct (length output mod 4 =? 0)%nat eqn:E.
    + apply Nat.eqb_eq in E. exact E.
    + apply Nat.eqb_neq in E. apply IH.
      rewrite length_app. cbn [length].
      rewrite Nat.Div0.add_mod.
      pose proof (Nat.mod_upper_bound (length output) 4 ltac:(lia)) as Hm.
      remember (length output mod 4)%nat as m.
      destruct m as [|[|[|[|m]]]]; try lia; cbn; lia.
Qed.

Lemma pad_loop_aligned (fuel : nat) (output : list ascii) :
  (length output mod 4 = 0)%nat -> pad_loop (S fuel) output = output.
Proof. intros H. cbn [pad_loop]. rewrite H. reflexivity. Qed.

Lemma length_app_mod4 (output tail : list ascii) :
  (length output mod 4 = 0)%nat ->
  (length (output ++ tail) mod 4 = length tail mod 4)%nat.
Proof.
  intros H. rewrite length_app, Nat.Div0.add_mod, H, Nat.add_0_l.
  apply Nat.Div0.mod_mod.
Qed.

Lemma encode_step_first (c : ascii) (val : Z) (output : list ascii) :
  encode_step c (val, -6, output)
  = let val := wrap32 (Z.shiftl val 8 + uchar c) in
    (val, -4, output ++ [base64_char (Z.land (Z.shiftr val 2) 63)]).
Proof. reflexivity. Qed.

Lemma encode_step_second (c : ascii) (val : Z) (output : list ascii) :
  encode_step c (val, -4, output)
  = let val := wrap32 (Z.shiftl val 8 + uchar c) in
    (val, -2, output ++ [base64_char (Z.land (Z.shiftr val 4) 63)]).
Proof. reflexivity. Qed.

Lemma encode_step_third (c : ascii) (val : Z) (output : list ascii) :
  encode_step c (val, -2, output)
  = let val := wrap32 (Z.shiftl val 8 + uchar c) in
    (val, -6,
     (output ++ [base64_char (Z.land (Z.shiftr val 6) 63)])
     ++ [base64_char (Z.land (Z.shiftr val 0) 63)]).
Proof. reflexivity. Qed.

Lemma encode_loop_block (a b c : ascii) (rest : list ascii) (val : Z)
      (output : list ascii) :
  exists val',
    encode_loop (a :: b :: c :: rest) (val, -6, output)
    = encode_loop rest
        (val', -6,
         output ++ map base64_char (sextets (uchar a) (uchar b) (uchar c))).
Proof.
  pose proof (uchar_range a) as Ha. pose proof (uchar_range b) as Hb.
  pose proof (uchar_range c) as Hc.
  eexists. cbn [encode_loop].
  rewrite encode_step_first; cbv zeta.
  rewrite encode_step_second; cbv zeta.
  rewrite encode_step_third; cbv zeta.
  rewrite <- !app_assoc. cbn [app]. unfold sextets. cbn [map].
  do 3 f_equal.
  repeat (f_equal; [f_equal; bits_to_arith|]).
  do 2 f_equal. bits_to_arith.
Qed.

Lemma pad_loop_two (output : list ascii) (x y : ascii) :
  (length output mod 4 = 0)%nat ->
  pad_loop 4 (output ++ [x; y]) = output ++ [x; y; "="%char; "="%char].
Proof.
  intros Hlen.
  rewrite pad_loop_unfold, length_app_mod4 by exact Hlen.
  change (length [x; y] mod 4 =? 0)%nat with false. cbv iota.
  rewrite <- app_assoc. cbn [app].
  rewrite pad_loop_unfold, length_app_mod4 by exact Hlen.
  change (length [x; y; "="%char] mod 4 =? 0)%nat with false. cbv iota.
  rewrite <- app_assoc. cbn [app].
  rewrite pad_loop_unfold, length_app_mod4 by exact Hlen.
  reflexivity.
Qed.

Lemma pad_loop_three (output : list ascii) (x y z : ascii) :
  (length output mod 4 = 0)%nat ->
  pad_loop 4 (output ++ [x; y; z]) = output ++ [x; y; z; "="%char].
Proof.
  intros Hlen.
  rewrite pad_loop_unfold, length_app_mod4 by exact Hlen.
  change (length [x; y; z] mod 4 =? 0)%nat with false. cbv iota.
  rewrite <- app_assoc. cbn [app].
  rewrite pad_loop_unfold, length_app_mod4 by exact Hlen.
  reflexivity.
Qed.

Lemma encode_finish_blocks (input : list ascii) :
  forall val output,
    (length output mod 4 = 0)%nat ->
    encode_finish (encode_loop input (val, -6, output))
    = output ++ encode_blocks input.
Proof.
  induction input as [|a|a b|a b c rest IH] using list_ind3;
    intros val output Hlen.
  - cbn [encode_loop encode_blocks]. unfold encode_finish.
    change (-6 <? -6) with false. cbv iota.
    rewrite pad_loop_aligned by exact Hlen. now rewrite app_nil_r.
  - pose proof (uchar_range a) as Ha.
    cbn [encode_loop encode_blocks]. rewrite encode_step_first; cbv zeta.
    unfold encode_finish. change (-6 <? -4) with true. cbv iota.
    change (-4 + 8) with 4. rewrite <- app_assoc. cbn [app].
    rewrite pad_loop_two by exact Hlen.
    do 2 f_equal; [f_equal; bits_to_arith|].
    do 2 f_equal. bits_to_arith.
  - pose proof (uchar_range a) as Ha. pose proof (uchar_range b) as Hb.
    cbn [encode_loop encode_blocks]. rewrite encode_step_first; cbv zeta.
    rewrite encode_step_second; cbv zeta.
    unfold encode_finish. change (-6 <? -2) with true. cbv iota.
    change (-2 + 8) with 6. rewrite <- !app_assoc. cbn [app].
    rewrite pad_loop_three by exact Hlen.
    f_equal. do 2 (f_equal; [f_equal; bits_to_arith|]).
    do 2 f_equal. bits_to_arith.
  - destruct (encode_loop_block a b c rest val output) as [val' ->].
    rewrite IH.
    + cbn [encode_blocks]. now rewrite app_assoc.
    + rewrite length_app_mod4 by exact Hlen. reflexivity.
Qed.

Lemma base64Encode_blocks (input : list ascii) :
  base64Encode input = encode_blocks input.
Proof. unfold base64Encode. now rewrite encode_finish_blocks. Qed.

(** Every index 0..63 is found again at its own place in the alphabet,
    and no letter of the alphabet is the padding character. *)
Lemma alphabet_table :
  forallb
    (fun n =>
       match find_pos (base64_char (Z.of_nat n)) BASE64_CHARS 0 with
       | Some p => (p =? Z.of_nat n) && negb (base64_char (Z.of_nat n) =? "=")%char
       | None => false
       end)
    (seq 0 64) = true.
Proof. vm_compute. reflexivity. Qed.

Lemma find_pos_base64_char (s : Z) :
  0 <= s < 64 ->
  find_pos (base64_char s) BASE64_CHARS 0 = Some s
  /\ (base64_char s =? "=")%char = false.
Proof.
  intros Hs. pose proof alphabet_table as T.
  rewrite forallb_forall in T.
  specialize (T (Z.to_nat s)). rewrite Z2Nat.id in T by lia.
  assert (In (Z.to_nat s) (seq 0 64)) as Hin by (apply in_seq; lia).
  specialize (T Hin).
  destruct (find_pos (base64_char s) BASE64_CHARS 0) as [p|]; [|discriminate].
  apply andb_true_iff in T as [T1 T2].
  apply Z.eqb_eq in T1. apply negb_true_iff in T2. subst p. auto.
Qed.

(** One step of [decode_loop] on a letter of the alphabet. *)
Lemma decode_loop_letter (s : Z) (rest : list ascii) (val valb : Z)
      (output : list ascii) :
  0 <= s < 64 ->
  decode_loop (base64_char s :: rest) val valb output
  = let val := wrap32 (Z.shiftl val 6 + s) in
    if 0 <=? valb + 6
    then decode_loop rest val (valb + 6 - 8)
           (output ++ [to_char (Z.land (Z.shiftr val (valb + 6)) 255)])
    else decode_loop rest val (valb + 6) output.
Proof.
  intros Hs. destruct (find_pos_base64_char s Hs) as [Hf Hp].
  cbn [decode_loop]. rewrite Hp, Hf. reflexivity.
Qed.

Lemma decode_loop_pad (rest : list ascii) (val valb : Z) (output : list ascii) :
  decode_loop ("="%char :: rest) val valb output = output.
Proof. reflexivity. Qed.

Lemma decode_letter_first (s : Z) rest val output :
  0 <= s < 64 ->
  decode_loop (base64_char s :: rest) val (-8) output
  = decode_loop rest (wrap32 (Z.shiftl val 6 + s)) (-2) output.
Proof. intros Hs. now rewrite decode_loop_letter. Qed.

Lemma decode_letter_second (s : Z) rest val output :
  0 <= s < 64 ->
  decode_loop (base64_char s :: rest) val (-2) output
  = let val := wrap32 (Z.shiftl val 6 + s) in
    decode_loop rest val (-4)
      (output ++ [to_char (Z.land (Z.shiftr val 4) 255)]).
Proof. intros Hs. now rewrite decode_loop_letter. Qed.

Lemma decode_letter_third (s : Z) rest val output :
  0 <= s < 64 ->
  decode_loop (base64_char s :: rest) val (-4) output
  = let val := wrap32 (Z.shiftl val 6 + s) in
    decode_loop rest val (-6)
      (output ++ [to_char (Z.land (Z.shiftr val 2) 255)]).
Proof. intros Hs. now rewrite decode_loop_letter. Qed.

Lemma decode_letter_fourth (s : Z) rest val output :
  0 <= s < 64 ->
  decode_loop (base64_char s :: rest) val (-6) output
  = let val := wrap32 (Z.shiftl val 6 + s) in
    decode_loop rest val (-8)
      (output ++ [to_char (Z.land (Z.shiftr val 0) 255)]).
Proof. intros Hs. now rewrite decode_loop_letter. Qed.

Ltac sextet_range := Z.div_mod_to_equations; lia.

Lemma decode_loop_blocks (input : list ascii) :
  forall val output,
    decode_loop (encode_blocks input) val (-8) output = output ++ input.
Proof.
  induction input as [|a|a b|a b c rest IH] using list_ind3;
    intros val output.
  - cbn [encode_blocks decode_loop]. now rewrite app_nil_r.
  - pose proof (uchar_range a) as Ha. cbn [encode_blocks].
    rewrite decode_letter_first by sextet_range.
    rewrite decode_letter_second by sextet_range. cbv zeta.
    rewrite decode_loop_pad.
    repeat f_equal; apply to_char_of; bits_to_arith.
  - pose proof (uchar_range a) as Ha. pose proof (uchar_range b) as Hb.
    cbn [encode_blocks].
    rewrite decode_letter_first by sextet_range.
    rewrite decode_letter_second by sextet_range. cbv zeta.
    rewrite decode_letter_third by sextet_range. cbv zeta.
    rewrite decode_loop_pad. rewrite <- app_assoc. cbn [app].
    repeat f_equal; apply to_char_of; bits_to_arith.
  - pose proof (uchar_range a) as Ha. pose proof (uchar_range b) as Hb.
    pose proof (uchar_range c) as Hc.
    cbn [encode_blocks]. unfold sextets. cbn [map app].
    rewrite decode_letter_first by sextet_range.
    rewrite decode_letter_second by sextet_range. cbv zeta.
    rewrite decode_letter_third by sextet_range. cbv zeta.
    rewrite decode_letter_fourth by sextet_range. cbv zeta.
    rewrite IH. rewrite <- !app_assoc. cbn [app].
    repeat f_equal; apply to_char_of; bits_to_arith.
Qed.

Lemma base64_roundtrip (input : list ascii) :
  base64Decode (base64Encode input) = input.
Proof.
  unfold base64Decode. rewrite base64Encode_blocks.
  now rewrite decode_loop_blocks.
Qed.

Lemma base64Encode_nil_inv (input : list ascii) :
  base64Encode input = [] -> input = [].
Proof.
  intros H. rewrite <- (base64_roundtrip input), H. reflexivity.
Qed.

(** C8. The obfuscation is reversible: for every string [s], the empty
    one and strings of arbitrary bytes included,
    [decryptMessage (encryptMessage s) = s]. *)
Theorem decrypt_encrypt_roundtrip (s : list ascii) :
  decryptMessage (encryptMessage s) = s.
Proof.
  destruct s as [|c rest]; [reflexivity|].
  unfold encryptMessage, decryptMessage.
  destruct (base64Encode (xor_loop 0 (c :: rest))) as [|e enc] eqn:E.
  - apply base64Encode_nil_inv in E. discriminate E.
  - rewrite <- E, base64_roundtrip. apply xor_loop_involutive.
Qed.

(** *** What the encoder writes, what the decoder tolerates *)

Lemma base64_char_in_alphabet (s : Z) :
  0 <= s < 64 -> In (base64_char s) BASE64_CHARS.
Proof.
  intros Hs. unfold base64_char. apply nth_In.
  change (length BASE64_CHARS) with 64%nat. lia.
Qed.

Lemma encode_blocks_length (input : list ascii) :
  length (encode_blocks input) = (4 * ((length input + 2) / 3))%nat.
Proof.
  induction input as [|a|a b|a b c rest IH] using list_ind3.
  - reflexivity.
  - reflexivity.
  - reflexivity.
  - cbn [encode_blocks]. rewrite length_app, IH.
    unfold sextets. cbn [length map].
    replace (S (S (S (length rest))) + 2)%nat
      with ((length rest + 2) + 1 * 3)%nat by lia.
    rewrite Nat.div_add by lia. lia.
Qed.

Ltac letter := right; apply base64_char_in_alphabet; sextet_range.
Ltac pad_sign := left; reflexivity.

Lemma encode_blocks_text (input : list ascii) :
  Forall (fun c => c = "="%char \/ In c BASE64_CHARS) (encode_blocks input).
Proof.
  induction input as [|a|a b|a b c rest IH] using list_ind3.
  - constructor.
  - pose proof (uchar_range a) as Ha. cbn [encode_blocks].
    constructor; [letter|]. constructor; [letter|].
    constructor; [pad_sign|]. constructor; [pad_sign|].
    constructor.
  - pose proof (uchar_range a) as Ha. pose proof (uchar_range b) as Hb.
    cbn [encode_blocks].
    constructor; [letter|]. constructor; [letter|].
    constructor; [letter|]. constructor; [pad_sign|].
    constructor.
  - pose proof (uchar_range a) as Ha. pose proof (uchar_range b) as Hb.
    pose proof (uchar_range c) as Hc.
    cbn [encode_blocks]. apply Forall_app. split; [|exact IH].
    unfold sextets. cbn [map].
    constructor; [letter|]. constructor; [letter|].
    constructor; [letter|]. constructor; [letter|].
    constructor.
Qed.

(** X4. [base64Decode] undoes [base64Encode] on every byte string; the
    encoding of [n] bytes has 4 * ceil(n / 3) characters, each a letter of
    the alphabet or the padding sign. *)
Theorem base64Encode_is_padded_text_and_decodes (input : list ascii) :
  base64Decode (base64Encode input) = input
  /\ length (base64Encode input) = (4 * ((length input + 2) / 3))%nat
  /\ Forall (fun c => c = "="%char \/ In c BASE64_CHARS) (base64Encode input).
Proof.
  split; [apply base64_roundtrip|].
  rewrite base64Encode_blocks.
  split; [apply encode_blocks_length | apply encode_blocks_text].
Qed.

Lemma decode_loop_stops_at_pad (a b : list ascii) :
  forall val valb output,
    decode_loop (a ++ "="%char :: b) val valb output
    = decode_loop a val valb output.
Proof.
  induction a as [|c a IH]; intros val valb output; [reflexivity|].
  cbn [app decode_loop].
  destruct (c =? "=")%char; [reflexivity|].
  destruct (find_pos c BASE64_CHARS 0) as [pos|]; [|apply IH].
  cbv zeta. destruct (0 <=? valb + 6); apply IH.
Qed.

Lemma decode_loop_skips_foreign (input : list ascii) :
  forall val valb output,
    decode_loop (List.filter read_by_decoder input) val valb output
    = decode_loop input val valb output.
Proof.
  induction input as [|c input IH]; intros val valb output; [reflexivity|].
  cbn [List.filter]. unfold read_by_decoder, in_alphabet.
  destruct (c =? "=")%char eqn:Ep.
  - cbn [orb decode_loop]. now rewrite Ep.
  - cbn [orb]. destruct (find_pos c BASE64_CHARS 0) as [pos|] eqn:Ef.
    + cbn [decode_loop]. rewrite Ep, Ef. cbv zeta.
      destruct (0 <=? valb + 6); apply IH.
    + cbn [decode_loop]. rewrite Ep, Ef. apply IH.
Qed.

(** X5. [base64Decode] skips every character that is neither a letter of
    the alphabet nor the padding sign, and reads nothing from the first
    padding sign on. *)
Theorem base64Decode_skips_and_stops (input before after : list ascii) :
  base64Decode (List.filter read_by_decoder input) = base64Decode input
  /\ base64Decode (before ++ "="%char :: after) = base64Decode before.
Proof.
  unfold base64Decode. split.
  - apply decode_loop_skips_foreign.
  - apply decode_loop_stops_at_pad.
Qed.

Lemma xor_loop_nil_inv (message : list ascii) (i : nat) :
  xor_loop i message = [] -> message = [].
Proof. destruct message; [reflexivity | discriminate]. Qed.

(** X6. What [encryptMessage] returns is text: for a message of [n] bytes,
    4 * ceil(n / 3) characters, each a letter of the base64 alphabet or the
    padding sign, whatever bytes the message holds; it is empty for the
    empty message only, and two messages with the same result are the same
    message. *)
Theorem encryptMessage_is_text (message other : list ascii) :
  length (encryptMessage message) = (4 * ((length message + 2) / 3))%nat
  /\ Forall (fun c => c = "="%char \/ In c BASE64_CHARS)
       (encryptMessage message)
  /\ (encryptMessage message = [] <-> message = [])
  /\ (encryptMessage message = encryptMessage other <-> message = other).
Proof.
  assert (forall m, encryptMessage m = base64Encode (xor_loop 0 m)) as Henc
    by (intros [|c m]; reflexivity).
  assert (forall m m', encryptMessage m = encryptMessage m' -> m = m') as Hinj.
  { intros m m' H. rewrite !Henc in H.
    apply (f_equal base64Decode) in H. rewrite !base64_roundtrip in H.
    apply (f_equal (xor_loop 0)) in H.
    now rewrite !xor_loop_involutive in H. }
  rewrite Henc, !base64Encode_blocks.
  split; [|split; [|split]].
  - now rewrite encode_blocks_length, xor_loop_length.
  - apply encode_blocks_text.
  - rewrite <- base64Encode_blocks, <- Henc.
    split; [intros H; apply (Hinj message []); exact H | intros ->; reflexivity].
  - rewrite <- base64Encode_blocks, <- Henc.
    split; [apply Hinj | intros ->; reflexivity].
Qed.

End MessageEncryptionFacts.

Section BlobStorageFacts.
Import BlobStorage.

(** C10. [saveMessages] returns false whenever [data] is null or [length]
    is zero, and does so before any file-system call: the world and the log
    of calls are as they were.  An empty blob is therefore never stored,
    although [loadMessages] answers a missing file with success and an
    empty vector. *)
Theorem saveMessages_rejects_empty_blob {W : Type} (os : OS W)
        (filePath : string) (data : option (list byte)) (length : nat)
        (w : W) (log : list Call) (old : list byte) :
  data = None \/ length = 0%nat ->
  saveMessages os filePath data length (w, log) = (false, (w, log))
  /\ (os_stat os filePath w = None ->
      fst (loadMessages os filePath old (w, log)) = (true, [])).
Proof.
  intros Hempty. split.
  - unfold saveMessages, ret.
    destruct Hempty as [-> | ->]; [reflexivity|].
    destruct data; reflexivity.
  - intros Hmissing. unfold loadMessages, bind, stat, ret.
    rewrite Hmissing. reflexivity.
Qed.

Lemma saveMessages_rejects_empty_blob_witness :
  (Some [] = @None (list byte) \/ 0%nat = 0%nat)
  /\ saveMessages bare_os "/data/messages.bin" (Some []) 0 (tt, [])
     = (false, (tt, []))
  /\ (os_stat bare_os "/data/messages.bin" tt = None ->
      fst (loadMessages bare_os "/data/messages.bin" [] (tt, []))
      = (true, [])).
Proof.
  split; [right; reflexivity|].
  apply (saveMessages_rejects_empty_blob bare_os "/data/messages.bin"
           (Some []) 0 tt [] []).
  right; reflexivity.
Defined.

(** *** Queries, paths and the way back from a save *)

(** X7. [hasMessages] answers true exactly when [getStorageSize] is
    positive; each makes one [stat] call and leaves the file system as it
    is. *)
Theorem hasMessages_iff_positive_size {W : Type} (os : OS W)
        (filePath : string) (w : W) (log : list Call) :
  fst (hasMessages os filePath (w, log))
  = (0 <? fst (getStorageSize os filePath (w, log)))
  /\ snd (hasMessages os filePath (w, log)) = (w, log ++ [CStat filePath])
  /\ snd (getStorageSize os filePath (w, log)) = (w, log ++ [CStat filePath]).
Proof.
  unfold hasMessages, getStorageSize, bind, stat, ret.
  destruct (os_stat os filePath w) as [i|]; [|auto].
  destruct (is_reg i); simpl; auto.
Qed.

Lemma find_last_of_from_none (s : string) :
  forall i last,
    ~ In "/"%char (list_ascii_of_string s) ->
    find_last_of_from i s last = last.
Proof.
  induction s as [|c s IH]; intros i last Hno; [reflexivity|].
  cbn [find_last_of_from]. simpl in Hno.
  destruct (c =? "/")%char eqn:E.
  - apply Ascii.eqb_eq in E. tauto.
  - apply IH. tauto.
Qed.

(** X8. A file path with no ['/'] in it is refused: [saveMessages]
    returns false for any data, without a single file-system call. *)
Theorem saveMessages_refuses_path_without_slash {W : Type} (os : OS W)
        (filePath : string) (data : option (list byte)) (length : nat)
        (w : W) (log : list Call) :
  ~ In "/"%char (list_ascii_of_string filePath) ->
  saveMessages os filePath data length (w, log) = (false, (w, log)).
Proof.
  intros Hno. unfold saveMessages.
  destruct data as [bytes|]; [|reflexivity].
  destruct length as [|n]; [reflexivity|].
  unfold bind, ensureDirectoryExists, find_last_of.
  rewrite find_last_of_from_none by exact Hno. reflexivity.
Qed.

Lemma saveMessages_refuses_path_without_slash_witness :
  saveMessages mem_os "messages.bin" (Some [x01; x02]) 2 (only_root, [])
  = (false, (only_root, [])).
Proof.
  apply (saveMessages_refuses_path_without_slash mem_os "messages.bin"
           (Some [x01; x02]) 2 only_root []).
  simpl. intuition discriminate.
Defined.

Lemma saveMessages_true_inv {W : Type} (os : OS W) (filePath : string)
      (data : option (list byte)) (length : nat) (st st' : W * list Call) :
  saveMessages os filePath data length st = (true, st') ->
  exists bytes w0 w1 log',
    data = Some bytes
    /\ os_open_trunc os filePath w0 = Some w1
    /\ os_write os filePath (firstn length bytes) w1 = (true, fst st')
    /\ snd st' = log'.
Proof.
  unfold saveMessages.
  destruct data as [bytes|]; [|discriminate].
  destruct length as [|n]; [discriminate|].
  unfold bind.
  destruct (ensureDirectoryExists os filePath st) as [ok [w0 log0]].
  destruct ok; cbn [negb]; [|discriminate].
  unfold open_trunc.
  destruct (os_open_trunc os filePath w0) as [w1|] eqn:Eo;
    cbn [negb]; [|discriminate].
  unfold write.
  destruct (os_write os filePath (firstn (S n) bytes) w1) as [good w2] eqn:Ew.
  destruct good; cbn [negb]; [|discriminate].
  unfold ret. intros H. injection H as <-.
  exists bytes, w0, w1, (log0 ++ [COpenTrunc filePath]
                           ++ [CWrite filePath (firstn (S n) bytes)]).
  simpl. rewrite <- app_assoc. auto.
Qed.

(** X9. On a file system that reads back what was written, a
    [saveMessages] that returned true followed by [loadMessages] of the
    same path returns true with exactly the bytes saved, the first
    [length] bytes of the data. *)
Theorem load_after_save {W : Type} (os : OS W) (filePath : string)
        (bytes old : list byte) (length : nat) (st st' : W * list Call) :
  reads_back os ->
  saveMessages os filePath (Some bytes) length st = (true, st') ->
  fst (loadMessages os filePath old st') = (true, firstn length bytes).
Proof.
  intros Hrb Hsave.
  destruct (saveMessages_true_inv _ _ _ _ _ _ Hsave)
    as (bytes' & w0 & w1 & log' & Hd & Ho & Hw & _).
  injection Hd as <-.
  destruct st' as [w2 log2]. simpl in Hw.
  destruct (Hrb _ _ _ _ _ Ho Hw) as (Hstat & Hate & Hread).
  unfold loadMessages, bind, stat, open_ate, read, ret.
  rewrite Hstat. cbn [is_reg negb]. rewrite Hate.
  destruct (Z.of_nat (List.length (firstn length bytes)) <=? 0) eqn:E.
  - apply Z.leb_le in E.
    destruct (firstn length bytes); [reflexivity | simpl in E; lia].
  - rewrite Hread. reflexivity.
Qed.

Lemma mem_os_reads_back : reads_back mem_os.
Proof.
  intros path data w w1 w2 _ Hw. simpl in Hw. injection Hw as <-.
  simpl. unfold put. rewrite String.eqb_refl.
  rewrite Nat2Z.id, firstn_all. auto.
Qed.

Lemma load_after_save_witness :
  saveMessages mem_os "/data/app/messages.bin" (Some [x01; x02; x03]) 2
    (only_root, [])
  = (true, snd (saveMessages mem_os "/data/app/messages.bin"
                  (Some [x01; x02; x03]) 2 (only_root, [])))
  /\ fst (loadMessages mem_os "/data/app/messages.bin" []
            (snd (saveMessages mem_os "/data/app/messages.bin"
                    (Some [x01; x02; x03]) 2 (only_root, []))))
     = (true, [x01; x02]).
Proof.
  assert (saveMessages mem_os "/data/app/messages.bin" (Some [x01; x02; x03]) 2
            (only_root, [])
          = (true, snd (saveMessages mem_os "/data/app/messages.bin"
                          (Some [x01; x02; x03]) 2 (only_root, [])))) as H
    by reflexivity.
  split; [exact H|].
  exact (load_after_save mem_os "/data/app/messages.bin" [x01; x02; x03] [] 2
           _ _ mem_os_reads_back H).
Defined.

Lemma mem_os_unlink_removes : unlink_removes mem_os.
Proof.
  intros path w w' H. simpl in H.
  destruct (w path) as [[|bytes]|]; try discriminate.
  injection H as <-. simpl. unfold put. now rewrite String.eqb_refl.
Qed.

(** X27. Nothing is left after a [clearMessages] that returned true: on
    a file system where an unlinked path is gone, [hasMessages] then
    answers false, [getStorageSize] gives 0, and [loadMessages] returns
    true with an empty vector, whatever the vector held before. *)
Theorem nothing_left_after_clear {W : Type} (os : OS W) (filePath : string)
        (old : list byte) (st st' : W * list Call) :
  unlink_removes os ->
  clearMessages os filePath st = (true, st') ->
  fst (hasMessages os filePath st') = false
  /\ fst (getStorageSize os filePath st') = 0
  /\ fst (loadMessages os filePath old st') = (true, []).
Proof.
  intros Hun Hclear. destruct st as [w log]. destruct st' as [w' log'].
  assert (os_stat os filePath w' = None) as Hgone.
  { unfold clearMessages, bind, stat, unlink, ret in Hclear.
    destruct (os_stat os filePath w) eqn:Es.
    - destruct (os_unlink os filePath w) as [ok w1] eqn:Eu.
      injection Hclear as -> <- _. exact (Hun _ _ _ Eu).
    - injection Hclear as <- _. exact Es. }
  unfold hasMessages, getStorageSize, loadMessages, bind, stat, ret.
  rewrite Hgone. auto.
Qed.

Lemma nothing_left_after_clear_witness :
  fst (hasMessages mem_os "/data/app/messages.bin" saved) = true
  /\ clearMessages mem_os "/data/app/messages.bin" saved
     = (true, snd (clearMessages mem_os "/data/app/messages.bin" saved))
  /\ fst (loadMessages mem_os "/data/app/messages.bin" [x01]
            (snd (clearMessages mem_os "/data/app/messages.bin" saved)))
     = (true, []).
Proof.
  assert (clearMessages mem_os "/data/app/messages.bin" saved
          = (true, snd (clearMessages mem_os "/data/app/messages.bin" saved)))
    as H by reflexivity.
  split; [reflexivity|]. split; [exact H|].
  exact (proj2 (proj2 (nothing_left_after_clear mem_os
                         "/data/app/messages.bin" [x01] _ _
                         mem_os_unlink_removes H))).
Defined.

End BlobStorageFacts.

Section ThreadManagerFacts.
Import ThreadManager.
Context {Task : Type}.
Implicit Types (p : Pool Task) (ws : list (Worker Task)).

Lemma running_insert_waiting ws i task :
  ws !! i = Some (Running task) ->
  running ws ≡ₚ task :: running (<[i := Waiting]> ws).
Proof.
  revert i. induction ws as [|w ws IH]; intros [|i] H; try discriminate.
  - simpl in H. injection H as ->. reflexivity.
  - simpl in H. unfold running in *. simpl.
    rewrite (IH i H). simpl. rewrite Permutation_middle. reflexivity.
Qed.

Lemma running_insert_running ws i task :
  ws !! i = Some Waiting ->
  running (<[i := Running task]> ws) ≡ₚ task :: running ws.
Proof.
  revert i. induction ws as [|w ws IH]; intros [|i] H; try discriminate.
  - simpl in H. injection H as ->. reflexivity.
  - simpl in H. unfold running in *. simpl.
    rewrite (IH i H). simpl. rewrite Permutation_middle. reflexivity.
Qed.

Lemma running_insert_exited ws i :
  ws !! i = Some Waiting ->
  running (<[i := Exited]> ws) = running ws.
Proof.
  revert i. induction ws as [|w ws IH]; intros [|i] H; try discriminate.
  - simpl in H. injection H as ->. reflexivity.
  - simpl in H. unfold running in *. simpl. now rewrite (IH i H).
Qed.

Lemma running_all_exited ws :
  forallb has_exited ws = true -> running ws = [].
Proof.
  induction ws as [|w ws IH]; [reflexivity|]. simpl.
  intros H. apply andb_true_iff in H as [Hw Hws].
  destruct w; try discriminate. unfold running in *. simpl. auto.
Qed.

Lemma all_exited_has_one ws :
  forallb has_exited ws = true -> (0 < length ws)%nat -> Exited ∈ ws.
Proof.
  destruct ws as [|w ws]; simpl; [lia|].
  intros H _. apply andb_true_iff in H as [Hw _].
  destruct w; try discriminate. left.
Qed.

Lemma elem_of_insert_inv {A} (l : list A) (i : nat) (x y : A) :
  x ∈ <[i := y]> l -> x = y \/ x ∈ l.
Proof.
  intros H. apply list_elem_of_lookup in H as [j Hj].
  apply list_lookup_insert_Some in Hj as [(_ & -> & _) | (_ & Hj)]; [now left|].
  right. apply list_elem_of_lookup. eauto.
Qed.

Ltac pool_inv_split :=
  unfold pool_inv; cbn [poolThreads_ taskQueue_ stopPool_ activeTasks_
                        shutdown_pc accepted dequeuedBeforeStop executed];
  split; [|split; [|split; [|split]]].

Lemma running_replicate_waiting (n : nat) :
  running (replicate n (@Waiting Task)) = [].
Proof. induction n; simpl; auto. Qed.

Lemma pool_inv_init (n : nat) : pool_inv n (@initializeThreadPool Task n).
Proof.
  unfold initializeThreadPool. pool_inv_split.
  - intros _. now rewrite length_replicate.
  - congruence.
  - intros H. apply elem_of_replicate in H as [? _]. discriminate.
  - discriminate.
  - intros _. now rewrite running_replicate_waiting.
Qed.

Lemma pool_inv_step (n : nat) (a : Action Task) p p' :
  pool_inv n p -> step a p = Some p' -> pool_inv n p'.
Proof.
  intros Hinv Hstep. pose proof Hinv as (Hlen & Hstop & Hex & Hret & Hperm).
  destruct a as [task | i | i | | ]; simpl in Hstep.
  - (* submitTask *)
    injection Hstep as <-. unfold submitTask.
    destruct (stopPool_ p) eqn:Es; [exact Hinv|].
    pool_inv_split.
    + exact Hlen.
    + intros H. specialize (Hstop H). congruence.
    + intros H. apply Hex in H as [? _]. congruence.
    + intros H. assert (shutdown_pc p <> NotCalled) as Hn
        by (rewrite H; discriminate).
      specialize (Hstop Hn). congruence.
    + intros Hn. rewrite (Hperm Hn), !app_assoc. reflexivity.
  - (* the locked block of workerFunction *)
    unfold worker_wake in Hstep.
    destruct (poolThreads_ p !! i) as [[| |]|] eqn:Ei; try discriminate.
    assert (shutdown_pc p <> Returned) as Hnr.
    { intros H. apply Hret in H as [H _]. rewrite H in Ei. discriminate. }
    destruct (taskQueue_ p) as [|task rest] eqn:Eq.
    + destruct (stopPool_ p) eqn:Es; [|discriminate].
      injection Hstep as <-. pool_inv_split.
      * intros _. rewrite length_insert. auto.
      * auto.
      * auto.
      * intros H. contradiction.
      * intros Hn. rewrite running_insert_exited by exact Ei. auto.
    + injection Hstep as <-. pool_inv_split.
      * intros _. rewrite length_insert. auto.
      * exact Hstop.
      * intros H. apply elem_of_insert_inv in H as [H | H]; [discriminate|].
        apply Hex in H as [_ H]. discriminate.
      * intros H. contradiction.
      * intros Hn. rewrite (Hperm Hn).
        rewrite (running_insert_running _ _ task Ei).
        rewrite <- Permutation_middle. reflexivity.
  - (* the task has returned *)
    unfold worker_done in Hstep.
    destruct (poolThreads_ p !! i) as [[|task|]|] eqn:Ei; try discriminate.
    assert (shutdown_pc p <> Returned) as Hnr.
    { intros H. apply Hret in H as [H _]. rewrite H in Ei. discriminate. }
    injection Hstep as <-. pool_inv_split.
    + intros _. rewrite length_insert. auto.
    + exact Hstop.
    + intros H. apply elem_of_insert_inv in H as [H | H]; [discriminate|].
      auto.
    + intros H. contradiction.
    + intros Hn. rewrite (Hperm Hn).
      rewrite (running_insert_waiting _ _ _ Ei).
      rewrite <- !app_assoc. simpl. rewrite <- Permutation_middle.
      reflexivity.
  - (* shutdownThreadPool sets the flag *)
    unfold shutdown_begin in Hstep.
    destruct (shutdown_pc p) eqn:Epc; try discriminate.
    injection Hstep as <-. pool_inv_split.
    + intros _. apply Hlen. discriminate.
    + reflexivity.
    + intros H. apply Hex in H as [_ H]. auto.
    + discriminate.
    + exact Hperm.
  - (* shutdownThreadPool returns *)
    unfold shutdown_end in Hstep.
    destruct (shutdown_pc p) eqn:Epc; try discriminate.
    destruct (forallb has_exited (poolThreads_ p)) eqn:Eall; [|discriminate].
    injection Hstep as <-. pool_inv_split.
    + congruence.
    + intros _. apply Hstop. discriminate.
    + intros H. apply elem_of_nil in H. contradiction.
    + auto.
    + intros Hn.
      assert (length (poolThreads_ p) = n) as Hl by (apply Hlen; discriminate).
      assert (Exited ∈ poolThreads_ p) as Hone
        by (apply all_exited_has_one; [exact Eall | lia]).
      apply Hex in Hone as [_ Hq].
      rewrite (Hperm Hn), Hq, (running_all_exited _ Eall). reflexivity.
Qed.

Lemma pool_inv_run (n : nat) (acts : list (Action Task)) :
  forall p p', pool_inv n p -> run acts p = Some p' -> pool_inv n p'.
Proof.
  induction acts as [|a acts IH]; intros p p' Hinv Hrun; simpl in Hrun.
  - injection Hrun as <-. exact Hinv.
  - destruct (step a p) as [p1|] eqn:Es; [|discriminate].
    eapply IH; [|exact Hrun]. eapply pool_inv_step; eauto.
Qed.

(** C3, as the code has it.  A worker leaves [workerFunction] only when
    the stop flag is set and the queue is empty, so with at least one worker
    every task [submitTask] accepted has run by the time
    [shutdownThreadPool] returns, whether or not it had been dequeued
    before the flag was set: the queue is empty then and nothing was
    discarded. *)
Theorem shutdown_runs_every_accepted_task (poolSize : nat)
        (acts : list (Action Task)) p :
  (0 < poolSize)%nat ->
  run acts (initializeThreadPool poolSize) = Some p ->
  shutdown_pc p = Returned ->
  executed p ≡ₚ accepted p /\ taskQueue_ p = [].
Proof.
  intros Hn Hrun Hret.
  destruct (pool_inv_run poolSize acts _ _ (pool_inv_init poolSize) Hrun)
    as (_ & _ & _ & Hr & Hperm).
  destruct (Hr Hret) as [Hw Hq]. split; [|exact Hq].
  rewrite (Hperm Hn), Hw, Hq. simpl. now rewrite app_nil_r.
Qed.

(** *** The stop flag, the task counter and the order of service *)

Lemma counters_init (n : nat) : counters_inv (@initializeThreadPool Task n).
Proof.
  unfold counters_inv, initializeThreadPool; simpl.
  rewrite running_replicate_waiting. simpl.
  split; [|reflexivity]. split; [discriminate | intros H; now contradiction H].
Qed.

Lemma counters_step (n : nat) (a : Action Task) p p' :
  pool_inv n p -> counters_inv p -> step a p = Some p' -> counters_inv p'.
Proof.
  intros Hinv [Hstop Hact] Hstep.
  destruct a as [task | i | i | | ]; simpl in Hstep.
  - injection Hstep as <-. unfold submitTask.
    destruct (stopPool_ p) eqn:Es; split; simpl; rewrite ?Es; assumption.
  - unfold worker_wake in Hstep.
    destruct (poolThreads_ p !! i) as [[| |]|] eqn:Ei; try discriminate.
    destruct (taskQueue_ p) as [|task rest] eqn:Eq.
    + destruct (stopPool_ p) eqn:Es; [|discriminate].
      injection Hstep as <-. split; simpl; [rewrite ?Es; exact Hstop|].
      rewrite running_insert_exited by exact Ei. exact Hact.
    + injection Hstep as <-. split; simpl; [exact Hstop|].
      rewrite (Permutation_length (running_insert_running _ _ task Ei)).
      simpl. lia.
  - unfold worker_done in Hstep.
    destruct (poolThreads_ p !! i) as [[|task|]|] eqn:Ei; try discriminate.
    injection Hstep as <-. split; simpl; [exact Hstop|].
    rewrite (Permutation_length (running_insert_waiting _ _ _ Ei)) in Hact.
    simpl in Hact. lia.
  - unfold shutdown_begin in Hstep.
    destruct (shutdown_pc p) eqn:Epc; try discriminate.
    injection Hstep as <-. split; simpl; [|exact Hact].
    split; [discriminate | reflexivity].
  - unfold shutdown_end in Hstep.
    destruct (shutdown_pc p) eqn:Epc; try discriminate.
    destruct (forallb has_exited (poolThreads_ p)) eqn:Eall; [|discriminate].
    injection Hstep as <-. split; simpl.
    + split; [discriminate|]. intros _. apply Hstop. discriminate.
    + rewrite (running_all_exited _ Eall) in Hact. exact Hact.
Qed.

Lemma counters_run (n : nat) (acts : list (Action Task)) :
  forall p p', pool_inv n p -> counters_inv p -> run acts p = Some p' ->
               counters_inv p'.
Proof.
  induction acts as [|a acts IH]; intros p p' Hinv Hc Hrun; simpl in Hrun.
  - injection Hrun as <-. exact Hc.
  - destruct (step a p) as [p1|] eqn:Es; [|discriminate].
    eapply IH; [| |exact Hrun].
    + eapply pool_inv_step; eauto.
    + eapply counters_step; eauto.
Qed.


(** X11. [activeTasks_] is at every moment the number of tasks in the
    hands of the workers: it never goes below zero, and it is zero once
    [shutdownThreadPool] has returned. *)
Theorem activeTasks_counts_running_tasks (poolSize : nat)
        (acts : list (Action Task)) p :
  run acts (initializeThreadPool poolSize) = Some p ->
  activeTasks_ p = Z.of_nat (length (running (poolThreads_ p)))
  /\ (shutdown_pc p = Returned -> activeTasks_ p = 0).
Proof.
  intros Hrun.
  destruct (counters_run poolSize acts _ _ (pool_inv_init poolSize)
              (counters_init poolSize) Hrun) as [_ Hact].
  split; [exact Hact|]. intros Hret.
  destruct (pool_inv_run poolSize acts _ _ (pool_inv_init poolSize) Hrun)
    as (_ & _ & _ & Hr & _).
  destruct (Hr Hret) as [Hw _]. rewrite Hact, Hw. reflexivity.
Qed.

Lemma served_in_order_init (n : nat) :
  served_in_order (@initializeThreadPool Task n).
Proof.
  exists []. unfold initializeThreadPool; simpl.
  now rewrite running_replicate_waiting.
Qed.

Lemma served_in_order_step (n : nat) (a : Action Task) p p' :
  (0 < n)%nat -> pool_inv n p -> served_in_order p -> step a p = Some p' ->
  served_in_order p'.
Proof.
  intros Hn Hinv (started & Hacc & Hperm) Hstep.
  pose proof Hinv as (Hlen & _ & Hex & _ & _).
  destruct a as [task | i | i | | ]; simpl in Hstep.
  - injection Hstep as <-. unfold submitTask.
    destruct (stopPool_ p); [exists started; auto|].
    exists started. simpl. rewrite Hacc, app_assoc. auto.
  - unfold worker_wake in Hstep.
    destruct (poolThreads_ p !! i) as [[| |]|] eqn:Ei; try discriminate.
    destruct (taskQueue_ p) as [|task rest] eqn:Eq.
    + destruct (stopPool_ p); [|discriminate].
      injection Hstep as <-. exists started. simpl.
      rewrite running_insert_exited by exact Ei. auto.
    + injection Hstep as <-. exists (started ++ [task]). simpl.
      split; [rewrite Hacc, <- app_assoc; reflexivity|].
      rewrite (running_insert_running _ _ task Ei), Hperm.
      rewrite <- app_assoc. apply Permutation_app_head.
      symmetry. apply Permutation_cons_append.
  - unfold worker_done in Hstep.
    destruct (poolThreads_ p !! i) as [[|task|]|] eqn:Ei; try discriminate.
    injection Hstep as <-. exists started. simpl. split; [exact Hacc|].
    rewrite Hperm, (running_insert_waiting _ _ _ Ei).
    rewrite <- app_assoc. reflexivity.
  - unfold shutdown_begin in Hstep.
    destruct (shutdown_pc p); try discriminate.
    injection Hstep as <-. exists started. auto.
  - unfold shutdown_end in Hstep.
    destruct (shutdown_pc p) eqn:Epc; try discriminate.
    destruct (forallb has_exited (poolThreads_ p)) eqn:Eall; [|discriminate].
    injection Hstep as <-. exists started. simpl.
    assert (length (poolThreads_ p) = n) as Hl by (apply Hlen; discriminate).
    assert (Exited ∈ poolThreads_ p) as Hone
      by (apply all_exited_has_one; [exact Eall | lia]).
    apply Hex in Hone as [_ Hq].
    rewrite Hq in Hacc. rewrite (running_all_exited _ Eall) in Hperm. auto.
Qed.

Lemma served_in_order_run (n : nat) (acts : list (Action Task)) :
  (0 < n)%nat ->
  forall p p', pool_inv n p -> served_in_order p -> run acts p = Some p' ->
               served_in_order p'.
Proof.
  intros Hn. induction acts as [|a acts IH]; intros p p' Hinv Hs Hrun;
    simpl in Hrun.
  - injection Hrun as <-. exact Hs.
  - destruct (step a p) as [p1|] eqn:Es; [|discriminate].
    eapply IH; [| |exact Hrun].
    + eapply pool_inv_step; eauto.
    + eapply served_in_order_step; eauto.
Qed.

(** X12. The pool serves its queue first in, first out: in every state
    of a pool with at least one worker, the tasks still queued are the last
    of the accepted tasks, in the order of their submission, and the tasks
    accepted before them are exactly those being run or already run. *)
Theorem taskQueue_is_first_in_first_out (poolSize : nat)
        (acts : list (Action Task)) p :
  (0 < poolSize)%nat ->
  run acts (initializeThreadPool poolSize) = Some p ->
  exists started,
    accepted p = started ++ taskQueue_ p
    /\ started ≡ₚ executed p ++ running (poolThreads_ p).
Proof.
  intros Hn Hrun.
  exact (served_in_order_run poolSize acts Hn _ _ (pool_inv_init poolSize)
           (served_in_order_init poolSize) Hrun).
Qed.

End ThreadManagerFacts.

Section ThreadManagerRuns.
Import ThreadManager.

Lemma shutdown_runs_every_accepted_task_witness :
  (0 < 1)%nat
  /\ run shutdown_with_queued_task (initializeThreadPool 1)
     = Some after_shutdown
  /\ shutdown_pc after_shutdown = Returned
  /\ executed after_shutdown ≡ₚ accepted after_shutdown
  /\ taskQueue_ after_shutdown = [].
Proof.
  split; [lia|]. split; [vm_compute; reflexivity|]. split; [reflexivity|].
  apply (shutdown_runs_every_accepted_task 1 shutdown_with_queued_task
           after_shutdown);
    [lia | vm_compute; reflexivity | reflexivity].
Defined.

(** C3, as the design states it, fails: in the run above task 7 was still
    queued when the flag was set, and it has run when shutdown returns. *)
Lemma queued_task_runs_after_stop : ~ queued_tasks_discarded 1.
Proof.
  intros H.
  assert (run shutdown_with_queued_task (initializeThreadPool 1)
          = Some after_shutdown) as E by (vm_compute; reflexivity).
  specialize (H shutdown_with_queued_task after_shutdown E eq_refl 7%nat).
  simpl in H. destruct H as [H _]. destruct H; auto.
Qed.


Lemma activeTasks_counts_running_tasks_witness :
  run two_workers_busy (initializeThreadPool 2) = Some while_busy
  /\ activeTasks_ while_busy = 1
  /\ run shutdown_with_queued_task (initializeThreadPool 1)
     = Some after_shutdown
  /\ activeTasks_ after_shutdown = 0.
Proof.
  assert (run two_workers_busy (initializeThreadPool 2) = Some while_busy)
    as E1 by (vm_compute; reflexivity).
  assert (run shutdown_with_queued_task (initializeThreadPool 1)
          = Some after_shutdown) as E2 by (vm_compute; reflexivity).
  split; [exact E1|]. split.
  - exact (proj1 (activeTasks_counts_running_tasks 2 two_workers_busy
                    while_busy E1)).
  - split; [exact E2|].
    exact (proj2 (activeTasks_counts_running_tasks 1 shutdown_with_queued_task
                    after_shutdown E2) eq_refl).
Defined.

Lemma taskQueue_is_first_in_first_out_witness :
  (0 < 2)%nat
  /\ run two_workers_busy (initializeThreadPool 2) = Some while_busy
  /\ exists started,
       [1%nat; 2%nat; 3%nat] = started ++ [3%nat]
       /\ started ≡ₚ [2%nat; 1%nat].
Proof.
  assert (run two_workers_busy (initializeThreadPool 2) = Some while_busy)
    as E1 by (vm_compute; reflexivity).
  split; [lia|]. split; [exact E1|].
  exact (taskQueue_is_first_in_first_out 2 two_workers_busy while_busy
           (Nat.lt_0_succ 1) E1).
Defined.

End ThreadManagerRuns.

Section ThreadRegistryFacts.
Import ThreadRegistry.
Local Open Scope nat_scope.

Lemma evolves_refl info : evolves info info.
Proof. split; auto. Qed.

Lemma evolves_trans a b c : evolves a b -> evolves b c -> evolves a c.
Proof. intros [H1 H2] [H3 H4]. split; [congruence | auto]. Qed.

Lemma entry_Some i r info :
  entry i r = Some info <-> threads_ r !! i = Some (Some info).
Proof.
  unfold entry. destruct (threads_ r !! i) as [[x|]|]; split; congruence.
Qed.

Lemma entry_store i j info r :
  entry j (store i info r)
  = if decide (i = j /\ i < length (threads_ r)) then Some info
    else entry j r.
Proof.
  unfold entry, store; simpl. rewrite list_lookup_insert.
  destruct (decide _); reflexivity.
Qed.

(** Every step keeps each entry in place and lets it evolve. *)
Lemma store_evolves i new r j info :
  (forall old, entry i r = Some old -> evolves old new) ->
  entry j r = Some info ->
  exists info', entry j (store i new r) = Some info' /\ evolves info info'.
Proof.
  intros Hev Hj. rewrite entry_store.
  destruct (decide _) as [[-> _]|_].
  - exists new. split; [reflexivity | auto].
  - exists info. split; [exact Hj | apply evolves_refl].
Qed.

Lemma step_evolves a r r' j info :
  step a r = Some r' -> entry j r = Some info ->
  exists info', entry j r' = Some info' /\ evolves info info'.
Proof.
  intros Hstep Hj.
  destruct a as [nm | i | i | i | | i | i]; simpl in Hstep.
  - injection Hstep as <-. exists info. split; [|apply evolves_refl].
    apply entry_Some in Hj. apply entry_Some. simpl.
    rewrite lookup_app_l; [exact Hj|]. eapply lookup_lt_Some; eauto.
  - unfold joinThread in Hstep.
    destruct (entry i r) as [old|] eqn:Ei.
    + destruct (joinable old) eqn:Ejn.
      * destruct (body old); try discriminate. injection Hstep as <-.
        apply store_evolves; [|exact Hj].
        intros o Ho. rewrite Ei in Ho. injection Ho as <-.
        split; [reflexivity | intros _; reflexivity].
      * injection Hstep as <-. exists info. split; [auto | apply evolves_refl].
    + injection Hstep as <-. exists info. split; [auto | apply evolves_refl].
  - injection Hstep as <-. unfold detachThread.
    destruct (entry i r) as [old|] eqn:Ei; simpl;
      [|exists info; split; [auto | apply evolves_refl]].
    destruct (joinable old) eqn:Ejn; simpl;
      [|exists info; split; [auto | apply evolves_refl]].
    apply store_evolves; [|exact Hj].
    intros o Ho. rewrite Ei in Ho. injection Ho as <-.
    split; [reflexivity | intros _; reflexivity].
  - injection Hstep as <-. unfold terminateThread.
    destruct (entry i r) as [old|] eqn:Ei; simpl;
      [|exists info; split; [auto | apply evolves_refl]].
    destruct (joinable old) eqn:Ejn; simpl;
      [|exists info; split; [auto | apply evolves_refl]].
    apply store_evolves; [|exact Hj].
    intros o Ho. rewrite Ei in Ho. injection Ho as <-.
    split; [reflexivity | congruence].
  - unfold joinAll in Hstep.
    destruct (forallb join_ready (threads_ r)); [|discriminate].
    injection Hstep as <-. apply entry_Some in Hj.
    destruct (joinable info) eqn:Ejn.
    + exists (set_state TERMINATED (set_thread (Some false) info)). split.
      * apply entry_Some. simpl. rewrite list_lookup_fmap, Hj. simpl.
        now rewrite Ejn.
      * split; [reflexivity | intros _; reflexivity].
    + exists info. split; [|apply evolves_refl].
      apply entry_Some. simpl. rewrite list_lookup_fmap, Hj. simpl.
      now rewrite Ejn.
  - unfold body_start in Hstep.
    destruct (entry i r) as [old|] eqn:Ei; [|discriminate].
    destruct (body old); try discriminate. injection Hstep as <-.
    apply store_evolves; [|exact Hj].
    intros o Ho. rewrite Ei in Ho. injection Ho as <-.
    split; [reflexivity | auto].
  - unfold body_finish in Hstep.
    destruct (entry i r) as [old|] eqn:Ei; [|discriminate].
    destruct (body old); try discriminate. injection Hstep as <-.
    apply store_evolves; [|exact Hj].
    intros o Ho. rewrite Ei in Ho. injection Ho as <-.
    split; [reflexivity | auto].
Qed.

Lemma run_evolves acts :
  forall r r' j info,
    run acts r = Some r' -> entry j r = Some info ->
    exists info', entry j r' = Some info' /\ evolves info info'.
Proof.
  induction acts as [|a acts IH]; intros r r' j info Hrun Hj; simpl in Hrun.
  - injection Hrun as <-. exists info. split; [auto | apply evolves_refl].
  - destruct (step a r) as [r1|] eqn:Es; [|discriminate].
    destruct (step_evolves _ _ _ _ _ Es Hj) as (i1 & H1 & E1).
    destruct (IH _ _ _ _ Hrun H1) as (i2 & H2 & E2).
    exists i2. split; [exact H2 | eapply evolves_trans; eauto].
Qed.


Lemma run_app acts1 acts2 r :
  run (acts1 ++ acts2) r
  = match run acts1 r with Some r1 => run acts2 r1 | None => None end.
Proof.
  revert r. induction acts1 as [|a acts1 IH]; intros r; simpl; [reflexivity|].
  destruct (step a r); [apply IH | reflexivity].
Qed.

Lemma run_length acts :
  forall r r', run acts r = Some r' ->
               length (threads_ r) <= length (threads_ r').
Proof.
  induction acts as [|a acts IH]; intros r r' Hrun; simpl in Hrun.
  - injection Hrun as <-. lia.
  - destruct (step a r) as [r1|] eqn:Es; [|discriminate].
    apply IH in Hrun. enough (length (threads_ r) <= length (threads_ r1)) by lia.
    clear Hrun.
    destruct a as [nm | i | i | i | | i | i]; simpl in Es.
    + injection Es as <-. simpl. rewrite length_app. lia.
    + unfold joinThread in Es. destruct (entry i r) as [old|].
      * destruct (joinable old).
        -- destruct (body old); try discriminate. injection Es as <-.
           simpl. now rewrite length_insert.
        -- now injection Es as <-.
      * now injection Es as <-.
    + injection Es as <-. unfold detachThread.
      destruct (entry i r) as [old|]; [|simpl; lia].
      destruct (joinable old); simpl; [rewrite length_insert|]; lia.
    + injection Es as <-. unfold terminateThread.
      destruct (entry i r) as [old|]; [|simpl; lia].
      destruct (joinable old); simpl; [rewrite length_insert|]; lia.
    + unfold joinAll in Es.
      destruct (forallb join_ready (threads_ r)); [|discriminate].
      injection Es as <-. simpl. rewrite length_map. lia.
    + unfold body_start in Es. destruct (entry i r) as [old|]; [|discriminate].
      destruct (body old); try discriminate. injection Es as <-.
      simpl. now rewrite length_insert.
    + unfold body_finish in Es. destruct (entry i r) as [old|]; [|discriminate].
      destruct (body old); try discriminate. injection Es as <-.
      simpl. now rewrite length_insert.
Qed.

Lemma registry_inv_store i new r :
  honest (Some new) -> registry_inv r -> registry_inv (store i new r).
Proof.
  intros Hn [Hc Hall]. split; simpl.
  - now rewrite length_insert.
  - now apply Forall_insert.
Qed.

Lemma registry_inv_entry i r info :
  registry_inv r -> entry i r = Some info -> honest (Some info).
Proof.
  intros [_ Hall] Hi. apply entry_Some in Hi.
  rewrite Forall_lookup in Hall. exact (Hall _ _ Hi).
Qed.

Lemma registry_inv_step a r r' :
  registry_inv r -> step a r = Some r' -> registry_inv r'.
Proof.
  intros Hinv Hstep. pose proof Hinv as [Hc Hall].
  destruct a as [nm | i | i | i | | i | i]; simpl in Hstep.
  - injection Hstep as <-. split; simpl.
    + rewrite length_app. simpl. lia.
    + apply Forall_app. split; [exact Hall|].
      constructor; [|constructor].
      intros x E. injection E as <-. simpl. split; discriminate.
  - unfold joinThread in Hstep. destruct (entry i r) as [old|] eqn:Ei.
    + destruct (joinable old).
      * destruct (body old); try discriminate. injection Hstep as <-.
        apply registry_inv_store; [|exact Hinv].
        intros x E. injection E as <-. simpl. split; discriminate.
      * now injection Hstep as <-.
    + now injection Hstep as <-.
  - injection Hstep as <-. unfold detachThread.
    destruct (entry i r) as [old|] eqn:Ei; [|exact Hinv].
    destruct (joinable old); [|exact Hinv]. simpl.
    apply registry_inv_store; [|exact Hinv].
    pose proof (registry_inv_entry _ _ _ Hinv Ei) as Ho.
    intros x E. injection E as <-. simpl. split; [discriminate|].
    apply (Ho _ eq_refl).
  - injection Hstep as <-. unfold terminateThread.
    destruct (entry i r) as [old|] eqn:Ei; [|exact Hinv].
    destruct (joinable old); [|exact Hinv]. simpl.
    apply registry_inv_store; [|exact Hinv].
    pose proof (registry_inv_entry _ _ _ Hinv Ei) as Ho.
    intros x E. injection E as <-. simpl. split; [|discriminate].
    apply (Ho _ eq_refl).
  - unfold joinAll in Hstep.
    destruct (forallb join_ready (threads_ r)); [|discriminate].
    injection Hstep as <-. split; simpl.
    + now rewrite length_map.
    + apply Forall_fmap. eapply Forall_impl; [exact Hall|].
      intros [old|] Ho; simpl; [|intros x E; discriminate].
      destruct (joinable old); [|exact Ho].
      intros x E. injection E as <-. simpl. split; discriminate.
  - unfold body_start in Hstep.
    destruct (entry i r) as [old|] eqn:Ei; [|discriminate].
    destruct (body old); try discriminate. injection Hstep as <-.
    apply registry_inv_store; [|exact Hinv].
    pose proof (registry_inv_entry _ _ _ Hinv Ei) as Ho.
    intros x E. injection E as <-. simpl. split; [|reflexivity].
    apply (Ho _ eq_refl).
  - unfold body_finish in Hstep.
    destruct (entry i r) as [old|] eqn:Ei; [|discriminate].
    destruct (body old); try discriminate. injection Hstep as <-.
    apply registry_inv_store; [|exact Hinv].
    pose proof (registry_inv_entry _ _ _ Hinv Ei) as Ho.
    intros x E. injection E as <-. simpl. split; [|discriminate].
    apply (Ho _ eq_refl).
Qed.

Lemma registry_inv_run acts :
  forall r r', registry_inv r -> run acts r = Some r' -> registry_inv r'.
Proof.
  induction acts as [|a acts IH]; intros r r' Hinv Hrun; simpl in Hrun.
  - now injection Hrun as <-.
  - destruct (step a r) as [r1|] eqn:Es; [|discriminate].
    eapply IH; [|exact Hrun]. eapply registry_inv_step; eauto.
Qed.

Lemma registry_inv_constructed : registry_inv constructed.
Proof. split; [reflexivity | constructor]. Qed.

(** X13. [createThread] returns the number of threads created before as
    the handle, and the handle stays good: whatever the manager's clients
    and the threads do afterwards, it is below the total count and names
    the same thread, under the name given or, for an empty name, under
    "Thread-" followed by the handle in decimal. *)
Theorem createThread_gives_stable_handle
        (before after : list Action) (r r' : Registry) (name : string) :
  run before constructed = Some r ->
  run after (snd (createThread name r)) = Some r' ->
  fst (createThread name r) = getTotalThreadCount r
  /\ fst (createThread name r) < getTotalThreadCount r'
  /\ getThreadName (fst (createThread name r)) r'
     = match name with
       | EmptyString => ("Thread-" ++ to_string (fst (createThread name r)))%string
       | _ => name
       end.
Proof.
  intros Hb Ha.
  destruct (registry_inv_run before _ _ registry_inv_constructed Hb)
    as [Hc _].
  pose proof (run_length _ _ _ Ha) as Hlen.
  unfold getTotalThreadCount. simpl in *. rewrite length_app in Hlen.
  simpl in Hlen. split; [reflexivity|]. split; [lia|].
  set (info := {| name := match name with
                          | EmptyString =>
                              ("Thread-" ++ to_string (threadCounter_ r))%string
                          | _ => name
                          end;
                  state := CREATED; thread := Some true;
                  body := NotStarted |}).
  assert (entry (length (threads_ r)) (snd (createThread name r)) = Some info)
    as He.
  { apply entry_Some. simpl. rewrite lookup_app_r by lia.
    now rewrite Nat.sub_diag. }
  destruct (run_evolves _ _ _ _ _ Ha He) as (info' & He' & Hn & _).
  unfold getThreadName. rewrite He', Hn. simpl. now rewrite Hc.
Qed.

Lemma entry_not_joinable i r info :
  entry i r = Some info -> joinable info = false ->
  joinThread i r = Some (false, r)
  /\ detachThread i r = (false, r)
  /\ terminateThread i r = (false, r).
Proof.
  intros He Hj. unfold joinThread, detachThread, terminateThread.
  rewrite He, Hj. auto.
Qed.

(** X14. A thread is joined or detached once: after a [joinThread] or a
    [detachThread] on a handle has returned true, every later
    [joinThread], [detachThread] and [terminateThread] on that handle
    returns false at once and changes nothing, whatever happened in
    between. *)
Theorem thread_is_joined_or_detached_once
        (threadIndex : nat) (r r1 r2 : Registry) (acts : list Action) :
  joinThread threadIndex r = Some (true, r1)
  \/ detachThread threadIndex r = (true, r1) ->
  run acts r1 = Some r2 ->
  joinThread threadIndex r2 = Some (false, r2)
  /\ detachThread threadIndex r2 = (false, r2)
  /\ terminateThread threadIndex r2 = (false, r2).
Proof.
  intros Hcall Hrun.
  assert (exists info1, entry threadIndex r1 = Some info1
                        /\ joinable info1 = false) as (info1 & H1 & Hj1).
  { destruct Hcall as [Hcall | Hcall].
    - unfold joinThread in Hcall.
      destruct (entry threadIndex r) as [old|] eqn:Ei; [|discriminate].
      destruct (joinable old); [|discriminate].
      destruct (body old); try discriminate. injection Hcall as <-.
      exists (set_state TERMINATED (set_thread (Some false) old)).
      split; [|reflexivity]. rewrite entry_store.
      apply entry_Some, lookup_lt_Some in Ei.
      destruct (decide _) as [_|n]; [reflexivity|]. exfalso. apply n. auto.
    - unfold detachThread in Hcall.
      destruct (entry threadIndex r) as [old|] eqn:Ei; [|discriminate].
      destruct (joinable old); [|discriminate]. injection Hcall as <-.
      exists (set_thread (Some false) old).
      split; [|reflexivity]. rewrite entry_store.
      apply entry_Some, lookup_lt_Some in Ei.
      destruct (decide _) as [_|n]; [reflexivity|]. exfalso. apply n. auto. }
  destruct (run_evolves _ _ _ _ _ Hrun H1) as (info2 & H2 & _ & Hj2).
  apply (entry_not_joinable _ _ _ H2). auto.
Qed.

Lemma filter_length_le {A} (f g : A -> bool) (l : list A) :
  Forall (fun x => f x = true -> g x = true) l ->
  length (List.filter f l) <= length (List.filter g l).
Proof.
  induction 1 as [|x l Hx _ IH]; simpl; [lia|].
  destruct (f x) eqn:Ef.
  - rewrite (Hx eq_refl). simpl. lia.
  - destruct (g x); simpl; lia.
Qed.

(** X15. [getActiveThreadCount] never counts a thread that is not at
    work: in every state the registry reaches, the count is at most the
    number of threads whose lambda is inside its task, and at most the
    total count. *)
Theorem active_threads_are_in_their_task (acts : list Action) (r : Registry) :
  run acts constructed = Some r ->
  getActiveThreadCount r <= length (List.filter in_task (threads_ r))
  /\ getActiveThreadCount r <= getTotalThreadCount r.
Proof.
  intros Hrun.
  destruct (registry_inv_run acts _ _ registry_inv_constructed Hrun)
    as [_ Hall].
  unfold getActiveThreadCount, getTotalThreadCount. split.
  - apply filter_length_le. eapply Forall_impl; [exact Hall|].
    intros [info|] Ho; simpl; [|discriminate].
    destruct (Ho _ eq_refl) as [_ Hr].
    destruct info as [n s t b]; simpl in *.
    destruct s; try discriminate. intros _. now rewrite (Hr eq_refl).
  - apply List.filter_length_le.
Qed.

(** X16. When [joinAll] has returned, nothing is left to join: every
    [joinThread], [detachThread] and [terminateThread] returns false,
    every thread that was joinable is reported TERMINATED, and the handles
    and names are as before. *)
Theorem joinAll_leaves_nothing_to_join (r r' : Registry) (threadIndex : nat) :
  joinAll r = Some r' ->
  joinThread threadIndex r' = Some (false, r')
  /\ detachThread threadIndex r' = (false, r')
  /\ terminateThread threadIndex r' = (false, r')
  /\ getTotalThreadCount r' = getTotalThreadCount r
  /\ getThreadName threadIndex r' = getThreadName threadIndex r
  /\ (forall info, entry threadIndex r = Some info -> joinable info = true ->
                   getThreadState threadIndex r' = TERMINATED
                   /\ body info = Finished).
Proof.
  unfold joinAll. intros H.
  destruct (forallb join_ready (threads_ r)) eqn:Eall; [|discriminate].
  injection H as <-.
  set (r' := {| threads_ := map join_one (threads_ r);
                threadCounter_ := threadCounter_ r |}).
  assert (entry threadIndex r'
          = match entry threadIndex r with
            | Some info => join_one (Some info)
            | None => None
            end) as He.
  { unfold entry, r'. simpl. rewrite list_lookup_fmap.
    destruct (threads_ r !! threadIndex) as [[info|]|]; simpl; try reflexivity.
    destruct (joinable info); reflexivity. }
  unfold joinThread, detachThread, terminateThread, getThreadName,
    getThreadState, getTotalThreadCount.
  rewrite He. simpl. rewrite length_map.
  destruct (entry threadIndex r) as [info|] eqn:Ei.
  - destruct (joinable info) eqn:Ej; simpl; rewrite ?Ej;
      do 5 (split; [reflexivity|]); intros x E Hx; injection E as <-;
      [|congruence].
    split; [reflexivity|]. apply entry_Some in Ei.
    assert (Forall (fun e => join_ready e = true) (threads_ r)) as Hall
      by (apply Stdlib.Lists.List.Forall_forall, forallb_forall; exact Eall).
    rewrite Forall_lookup in Hall. specialize (Hall _ _ Ei). simpl in Hall.
    rewrite Ej in Hall. destruct (body info); congruence.
  - do 5 (split; [reflexivity|]). intros x E. discriminate.
Qed.

Lemma createThread_gives_stable_handle_witness :
  run [CreateThread "net"; BodyStart 0; BodyFinish 0] constructed
  = Some finished_thread
  /\ run [BodyStart 1; JoinThread 0; BodyFinish 1]
         (snd (createThread "" finished_thread)) = Some named_by_default
  /\ fst (createThread "" finished_thread) = 1
  /\ 1 < getTotalThreadCount named_by_default
  /\ getThreadName 1 named_by_default = "Thread-1"%string.
Proof.
  assert (run [CreateThread "net"; BodyStart 0; BodyFinish 0] constructed
          = Some finished_thread) as E1 by (vm_compute; reflexivity).
  assert (run [BodyStart 1; JoinThread 0; BodyFinish 1]
              (snd (createThread "" finished_thread))
          = Some named_by_default) as E2 by (vm_compute; reflexivity).
  split; [exact E1|]. split; [exact E2|].
  exact (createThread_gives_stable_handle _ _ _ _ ""%string E1 E2).
Defined.

Lemma thread_is_joined_or_detached_once_witness :
  joinThread 0 finished_thread = Some (true, joined_thread)
  /\ run [CreateThread "disk"; TerminateThread 0; BodyStart 1] joined_thread
     = Some joined_and_more
  /\ joinThread 0 joined_and_more = Some (false, joined_and_more)
  /\ detachThread 0 joined_and_more = (false, joined_and_more)
  /\ terminateThread 0 joined_and_more = (false, joined_and_more).
Proof.
  assert (joinThread 0 finished_thread = Some (true, joined_thread)) as E1
    by (vm_compute; reflexivity).
  assert (run [CreateThread "disk"; TerminateThread 0; BodyStart 1]
              joined_thread = Some joined_and_more) as E2
    by (vm_compute; reflexivity).
  split; [exact E1|]. split; [exact E2|].
  exact (thread_is_joined_or_detached_once 0 finished_thread joined_thread
           joined_and_more _ (or_introl E1) E2).
Defined.

Lemma active_threads_are_in_their_task_witness :
  run [CreateThread "net"; CreateThread "disk"; DetachThread 1;
       BodyStart 0; BodyFinish 0; BodyStart 1] constructed
  = Some one_detached
  /\ getActiveThreadCount one_detached
     <= length (List.filter in_task (threads_ one_detached))
  /\ getActiveThreadCount one_detached <= getTotalThreadCount one_detached.
Proof.
  assert (run [CreateThread "net"; CreateThread "disk"; DetachThread 1;
               BodyStart 0; BodyFinish 0; BodyStart 1] constructed
          = Some one_detached) as E by (vm_compute; reflexivity).
  split; [exact E|].
  exact (active_threads_are_in_their_task _ one_detached E).
Defined.

Lemma joinAll_leaves_nothing_to_join_witness :
  joinAll one_detached = Some all_joined
  /\ joinThread 0 all_joined = Some (false, all_joined)
  /\ getThreadName 0 all_joined = getThreadName 0 one_detached.
Proof.
  assert (joinAll one_detached = Some all_joined) as E
    by (vm_compute; reflexivity).
  split; [exact E|].
  destruct (joinAll_leaves_nothing_to_join one_detached all_joined 0 E)
    as (H1 & _ & _ & _ & H5 & _).
  split; [exact H1 | exact H5].
Defined.

End ThreadRegistryFacts.

Section IOBridgeFacts.
Import IOBridge.

Lemma postEvent_not_initialized (e : Event) (b : Bridge) (p : Pool) :
  isInitialized b = false -> postEvent e (b, p) = (b, p).
Proof. intros H. unfold postEvent. now rewrite H. Qed.

(** C9. A post made while the bridge is not initialized or no listener is
    registered returns at once: nothing is put on the event queue, no drain
    is scheduled, and the bridge and the pool are exactly as before, so the
    event is not there for a listener registered later. *)
Theorem post_before_listener_is_discarded (b : Bridge) (p : Pool)
        (id s : string) (z : Z) (flag : bool) (data : list byte) (n : nat) :
  isInitialized b = false ->
  postStringEvent id s (b, p) = (b, p)
  /\ postIntEvent id z (b, p) = (b, p)
  /\ postFloatEvent id z (b, p) = (b, p)
  /\ postDoubleEvent id z (b, p) = (b, p)
  /\ postBooleanEvent id flag (b, p) = (b, p)
  /\ postByteArrayEvent id data n (b, p) = (b, p).
Proof.
  intros H. repeat split; apply postEvent_not_initialized; exact H.
Qed.

Lemma post_before_listener_is_discarded_witness :
  isInitialized bridge_without_listener = false
  /\ postStringEvent "socket_message" "hello"
       (bridge_without_listener, ThreadManager.initializeThreadPool 2)
     = (bridge_without_listener, ThreadManager.initializeThreadPool 2).
Proof.
  split; [reflexivity|].
  apply (post_before_listener_is_discarded bridge_without_listener
           (ThreadManager.initializeThreadPool 2)
           "socket_message" "hello" 0 false [] 0).
  reflexivity.
Defined.

(** The three steps of a producer, run back to back, are [postEvent]. *)
Lemma post_steps_uninterrupted (j : nat) (e : Event) (s : System) :
  producers s !! j = Some Idle ->
  isInitialized (bridge s) = true ->
  exists s',
    (run [Post j e; Cas j; Submit j] s = Some s'
     \/ run [Post j e; Cas j] s = Some s')
    /\ (bridge s', pool s') = postEvent e (bridge s, pool s)
    /\ producers s' = producers s /\ sink s' = sink s.
Proof.
  intros Hj Hinit.
  assert (j < length (producers s))%nat as Hlt
    by (apply lookup_lt_is_Some; eauto).
  unfold postEvent. rewrite Hinit. cbn [negb].
  cbn [run step]. rewrite Hj, Hinit. cbn [negb].
  cbn [with_producer with_bridge producers bridge pool sink].
  rewrite list_lookup_insert_eq by exact Hlt.
  change (threadManager_ (push_back e (bridge s)))
    with (threadManager_ (bridge s)).
  destruct (threadManager_ (bridge s)) eqn:Etm.
  - unfold compare_exchange.
    change (processingScheduled_ (push_back e (bridge s)))
      with (processingScheduled_ (bridge s)).
    destruct (processingScheduled_ (bridge s)) eqn:Ef.
    + eexists. split; [right; reflexivity|].
      cbn [with_producer with_bridge producers bridge pool sink].
      rewrite list_insert_insert_eq, list_insert_id by exact Hj. auto.
    + eexists. split.
      * left. cbn [with_producer with_bridge producers bridge pool sink].
        rewrite list_insert_insert_eq, list_lookup_insert_eq by exact Hlt.
        reflexivity.
      * cbn [with_producer with_bridge with_pool producers bridge pool sink].
        rewrite !list_insert_insert_eq, list_insert_id by exact Hj. auto.
  - eexists. split; [right; reflexivity|].
    cbn [with_producer with_bridge producers bridge pool sink].
    rewrite list_insert_insert_eq, list_insert_id by exact Hj. auto.
Qed.

(** *** Single flight *)

Lemma sum_list_with_insert {A} (f : A -> nat) (l : list A) (i : nat) (x y : A) :
  l !! i = Some x ->
  (sum_list_with f (<[i := y]> l) + f x = sum_list_with f l + f y)%nat.
Proof.
  revert i. induction l as [|a l IH]; intros [|i] H; try discriminate.
  - simpl in H. injection H as ->. simpl. lia.
  - simpl in H. simpl. specialize (IH i H). lia.
Qed.

Lemma task_of_Some (i : nat) (p : Pool) (t : DrainTask) :
  task_of i p = Some t ->
  ThreadManager.poolThreads_ p !! i = Some (ThreadManager.Running t).
Proof.
  unfold task_of. destruct (_ !! i) as [[| |]|]; congruence.
Qed.

Lemma single_flight_init (workers threads : nat) :
  single_flight_inv (initial workers threads).
Proof.
  assert (tokens (initial workers threads) = 0%nat) as H.
  { unfold tokens, drains_in_flight, initial. simpl.
    assert (forall n, sum_list_with worker_in_flight
              (replicate n (@ThreadManager.Waiting DrainTask)) = 0%nat) as ->
      by (induction n; simpl; auto).
    induction threads; simpl; auto. }
  unfold single_flight_inv. rewrite H. split; [lia | auto].
Qed.

Ltac unfold_tokens :=
  unfold tokens, drains_in_flight in *;
  cbn [with_producer with_bridge with_pool with_sink set_worker
       set_processingScheduled set_eventQueue push_back
       producers bridge pool sink processingScheduled_
       ThreadManager.poolThreads_ ThreadManager.taskQueue_] in *.

Lemma single_flight_step (a : Action) (s s' : System) :
  single_flight_inv s -> step a s = Some s' -> single_flight_inv s'.
Proof.
  intros [Hle Hzero] Hstep. unfold single_flight_inv.
  destruct a as [j e | j | j | i | i env | i | i | i | i]; cbn [step] in Hstep.
  - (* Post *)
    destruct (producers s !! j) as [[| |]|] eqn:Ej; try discriminate.
    destruct (negb (isInitialized (bridge s)));
      injection Hstep as <-; [auto|].
    pose proof (sum_list_with_insert producer_won _ _ _ Pushed Ej) as Hs.
    unfold_tokens. simpl in Hs. split; [lia | intros F; specialize (Hzero F); lia].
  - (* Cas *)
    destruct (producers s !! j) as [[| |]|] eqn:Ej; try discriminate.
    destruct (threadManager_ (bridge s)).
    + unfold compare_exchange in Hstep.
      destruct (processingScheduled_ (bridge s)) eqn:Ef;
        injection Hstep as <-.
      * pose proof (sum_list_with_insert producer_won _ _ _ Idle Ej) as Hs.
        unfold_tokens. simpl in Hs. rewrite Ef.
        split; [lia | discriminate].
      * pose proof (sum_list_with_insert producer_won _ _ _ Won Ej) as Hs.
        specialize (Hzero eq_refl).
        unfold_tokens. simpl in Hs. split; [lia | discriminate].
    + injection Hstep as <-.
      pose proof (sum_list_with_insert producer_won _ _ _ Idle Ej) as Hs.
      unfold_tokens. simpl in Hs.
      split; [lia | intros F; specialize (Hzero F); lia].
  - (* Submit *)
    destruct (producers s !! j) as [[| |]|] eqn:Ej; try discriminate.
    injection Hstep as <-.
    pose proof (sum_list_with_insert producer_won _ _ _ Idle Ej) as Hs.
    unfold ThreadManager.submitTask.
    destruct (ThreadManager.stopPool_ (pool s)); unfold_tokens;
      simpl in Hs; try rewrite length_app; simpl;
      (split; [lia | intros F; specialize (Hzero F); lia]).
  - (* Wake *)
    destruct (ThreadManager.worker_wake i (pool s)) as [p|] eqn:Ew;
      [|discriminate].
    injection Hstep as <-. unfold ThreadManager.worker_wake in Ew.
    destruct (ThreadManager.poolThreads_ (pool s) !! i) as [[| |]|] eqn:Ei;
      try discriminate.
    destruct (ThreadManager.taskQueue_ (pool s)) as [|t rest] eqn:Eq.
    + destruct (ThreadManager.stopPool_ (pool s)); [|discriminate].
      injection Ew as <-.
      pose proof (sum_list_with_insert worker_in_flight _ _ _
                    ThreadManager.Exited Ei) as Hs.
      unfold_tokens. rewrite Eq in *. simpl in *.
      split; [lia | intros F; specialize (Hzero F); lia].
    + injection Ew as <-.
      pose proof (sum_list_with_insert worker_in_flight _ _ _
                    (ThreadManager.Running t) Ei) as Hs.
      assert (worker_in_flight (ThreadManager.Running t) <= 1)%nat
        by (destruct t; simpl; lia).
      unfold_tokens. rewrite Eq in *. simpl in *.
      split; [lia | intros F; specialize (Hzero F); lia].
  - (* Swap *)
    destruct (task_of i (pool s)) as [[| | |]|] eqn:Et; try discriminate.
    apply task_of_Some in Et.
    destruct (jvm_ (bridge s) && listenerObject_ (bridge s) && env);
      injection Hstep as <-.
    + pose proof (sum_list_with_insert worker_in_flight _ _ _
                    (ThreadManager.Running
                       (Delivering (eventQueue_ (bridge s)))) Et) as Hs.
      unfold_tokens. simpl in Hs.
      split; [lia | intros F; specialize (Hzero F); lia].
    + pose proof (sum_list_with_insert worker_in_flight _ _ _
                    (ThreadManager.Running AfterProcess) Et) as Hs.
      unfold_tokens. simpl in Hs.
      split; [lia | intros F; specialize (Hzero F); lia].
  - (* Deliver *)
    destruct (task_of i (pool s)) as [[|[|e rest]| |]|] eqn:Et;
      try discriminate.
    apply task_of_Some in Et. injection Hstep as <-.
    pose proof (sum_list_with_insert worker_in_flight _ _ _
                  (ThreadManager.Running (Delivering rest)) Et) as Hs.
    unfold invokeCallback.
    destruct (listenerClass_ (bridge s) && listenerObject_ (bridge s));
      unfold_tokens; simpl in Hs;
      (split; [lia | intros F; specialize (Hzero F); lia]).
  - (* Finish *)
    destruct (task_of i (pool s)) as [[|[|e rest]| |]|] eqn:Et;
      try discriminate.
    apply task_of_Some in Et. injection Hstep as <-.
    pose proof (sum_list_with_insert worker_in_flight _ _ _
                  (ThreadManager.Running AfterProcess) Et) as Hs.
    unfold_tokens. simpl in Hs.
    split; [lia | intros F; specialize (Hzero F); lia].
  - (* Clear *)
    destruct (task_of i (pool s)) as [[| | |]|] eqn:Et; try discriminate.
    apply task_of_Some in Et. injection Hstep as <-.
    pose proof (sum_list_with_insert worker_in_flight _ _ _
                  (ThreadManager.Running TaskEnd) Et) as Hs.
    unfold_tokens. simpl in Hs. split; [lia | intros _; lia].
  - (* Done *)
    destruct (task_of i (pool s)) as [[| | |]|] eqn:Et; try discriminate.
    apply task_of_Some in Et.
    unfold ThreadManager.worker_done in Hstep. rewrite Et in Hstep.
    injection Hstep as <-.
    pose proof (sum_list_with_insert worker_in_flight _ _ _
                  ThreadManager.Waiting Et) as Hs.
    unfold_tokens. simpl in Hs.
    split; [lia | intros F; specialize (Hzero F); lia].
Qed.

Lemma single_flight_run (acts : list Action) :
  forall s s', single_flight_inv s -> run acts s = Some s' ->
               single_flight_inv s'.
Proof.
  induction acts as [|a acts IH]; intros s s' Hinv Hrun; simpl in Hrun.
  - injection Hrun as <-. exact Hinv.
  - destruct (step a s) as [s1|] eqn:Es; [|discriminate].
    eapply IH; [|exact Hrun]. eapply single_flight_step; eauto.
Qed.

(** A task is submitted only by a producer whose compare-exchange took
    place. *)
Lemma submit_only_after_exchange (j : nat) (s s' : System) :
  step (Submit j) s = Some s' -> producers s !! j = Some Won.
Proof.
  cbn [step]. destruct (producers s !! j) as [[| |]|]; congruence.
Qed.

(** C2. In every state reached by interleaving the steps of the
    producers and of the workers, at most one drain task is in flight
    (queued in the pool, or running and not yet past its store to the
    flag), the flag is set as long as one is, and a producer can call
    [submitTask] only after a compare-exchange of its own that took
    place. *)
Theorem at_most_one_drain_in_flight (workers threads : nat)
        (acts : list Action) (s : System) :
  run acts (initial workers threads) = Some s ->
  (drains_in_flight s <= 1)%nat
  /\ ((0 < drains_in_flight s)%nat -> processingScheduled_ (bridge s) = true)
  /\ (forall j s', step (Submit j) s = Some s' -> producers s !! j = Some Won).
Proof.
  intros Hrun.
  destruct (single_flight_run acts _ _ (single_flight_init workers threads) Hrun)
    as [Hle Hzero].
  unfold tokens in *. split; [lia|]. split.
  - intros Hpos. destruct (processingScheduled_ (bridge s)); [reflexivity|].
    specialize (Hzero eq_refl). lia.
  - intros j s'. apply submit_only_after_exchange.
Qed.

(** *** Delivery in posting order, each event at most once *)











Lemma at_most_one_drain_in_flight_witness :
  run drain_started (initial 1 1) = Some draining
  /\ (drains_in_flight draining <= 1)%nat
  /\ ((0 < drains_in_flight draining)%nat ->
      processingScheduled_ (bridge draining) = true)
  /\ (forall j s', step (Submit j) draining = Some s' ->
                   producers draining !! j = Some Won).
Proof.
  split; [vm_compute; reflexivity|].
  apply (at_most_one_drain_in_flight 1 1 drain_started draining).
  vm_compute; reflexivity.
Defined.

(** C1, at the run [post_during_drain].  Both posts were accepted by an
    initialized bridge with a listener and a running pool.  In the state
    reached the sink has received [first_event] only; [second_event] sits
    in the event queue; the flag is clear, no drain task is queued or
    running, the producer is outside any post and the worker is blocked
    in its wait.  No step but the start of a further post is possible
    there, so nothing delivers [second_event]. *)
Theorem event_posted_during_drain_is_stranded :
  run post_during_drain (initial 1 1) = Some stranded
  /\ sink stranded = [first_event]
  /\ eventQueue_ (bridge stranded) = [second_event]
  /\ processingScheduled_ (bridge stranded) = false
  /\ drains_in_flight stranded = 0%nat
  /\ producers stranded = [Idle]
  /\ ThreadManager.poolThreads_ (pool stranded) = [ThreadManager.Waiting]
  /\ forall a, (forall j e, a <> Post j e) -> step a stranded = None.
Proof.
  split; [vm_compute; reflexivity|].
  repeat (split; [reflexivity|]).
  intros a Hpost.
  destruct a as [j e | j | j | i | i env | i | i | i | i].
  - exfalso. exact (Hpost j e eq_refl).
  - destruct j as [|j]; reflexivity.
  - destruct j as [|j]; reflexivity.
  - destruct i as [|i]; reflexivity.
  - destruct i as [|i]; reflexivity.
  - destruct i as [|i]; reflexivity.
  - destruct i as [|i]; reflexivity.
  - destruct i as [|i]; reflexivity.
  - destruct i as [|i]; reflexivity.
Qed.

(** *** A post on a quiet bridge *)










(** *** The life of the bridge *)

Lemma refs_inv_call (c : Call) (b b' : Bridge) (made : list JniCall) :
  refs_inv b -> call c b = Some (b', made) ->
  refs_inv b'
  /\ (sum_list_with created made + held b
      = sum_list_with deleted made + held b')%nat.
Proof.
  intros [Heq Hjvm] Hc. unfold refs_inv, held in *.
  destruct b as [jvm obj cls tm q sp flag]. cbn in Heq, Hjvm. subst cls.
  destruct c as [j | t | [env|] | env | env]; cbn in Hc.
  - unfold initialize in Hc. cbn in Hc.
    destruct jvm; injection Hc as <- <-; cbn; auto.
    split; [split; [reflexivity|]|lia]. intros ->. now specialize (Hjvm eq_refl).
  - injection Hc as <- <-. cbn. auto.
  - destruct jvm; cbn in Hc; [|injection Hc as <- <-; cbn; auto].
    destruct env as [r1 r2 r3].
    destruct obj, r1, r2, r3; cbn in Hc; injection Hc as <- <-; cbn;
      (split; [split; [reflexivity | auto] | reflexivity]).
  - injection Hc as <- <-. cbn. auto.
  - unfold unregisterListener in Hc.
    destruct env, obj; cbn in Hc; injection Hc as <- <-; cbn;
      (split; [split; [reflexivity | auto; discriminate] | reflexivity]).
  - unfold cleanup in Hc.
    destruct jvm, obj, env; cbn in Hc; try discriminate;
      try (specialize (Hjvm eq_refl); discriminate);
      injection Hc as <- <-; cbn;
      (split; [split; [reflexivity | discriminate] | reflexivity]).
Qed.

Lemma refs_inv_calls (cs : list Call) :
  forall (b b' : Bridge) (made : list JniCall),
    refs_inv b -> calls cs b = Some (b', made) ->
    refs_inv b'
    /\ (sum_list_with created made + held b
        = sum_list_with deleted made + held b')%nat.
Proof.
  induction cs as [|c cs IH]; intros b b' made Hinv Hrun; simpl in Hrun.
  - injection Hrun as <- <-. simpl. auto.
  - destruct (call c b) as [[b1 made1]|] eqn:Ec; [|discriminate].
    destruct (calls cs b1) as [[b2 made2]|] eqn:Er; [|discriminate].
    injection Hrun as <- <-.
    destruct (refs_inv_call _ _ _ _ Hinv Ec) as [Hinv1 Hbal1].
    destruct (IH _ _ _ Hinv1 Er) as [Hinv2 Hbal2].
    split; [exact Hinv2|].
    rewrite !sum_list_with_app. lia.
Qed.

Lemma refs_inv_constructed : refs_inv constructed.
Proof. split; [reflexivity | discriminate]. Qed.

(** X24. The bridge leaks no global reference and deletes none twice:
    after any sequence of [initialize], [setThreadManager],
    [registerListener], [unregisterListener] and [cleanup] on a new
    bridge, whatever the JVM answered, the references created are those
    deleted and those still held; the listener and its class are held
    together or not at all, and only while the JVM is set. *)
Theorem global_refs_are_balanced (cs : list Call) (b : Bridge)
        (made : list JniCall) :
  calls cs constructed = Some (b, made) ->
  sum_list_with created made = (sum_list_with deleted made + held b)%nat
  /\ listenerObject_ b = listenerClass_ b
  /\ (listenerObject_ b = true -> jvm_ b = true).
Proof.
  intros Hrun.
  destruct (refs_inv_calls cs _ _ _ refs_inv_constructed Hrun)
    as [[Heq Hjvm] Hbal].
  change (held constructed) with 0%nat in Hbal.
  split; [lia | split; assumption].
Qed.

Lemma global_refs_are_balanced_witness :
  calls set_up constructed
  = Some (registered,
          [NewGlobalRef ListenerRef true; GetObjectClass true;
           NewGlobalRef ClassRef true; DeleteLocalRef;
           DeleteGlobalRef ListenerRef; DeleteGlobalRef ClassRef;
           NewGlobalRef ListenerRef true; GetObjectClass true;
           NewGlobalRef ClassRef true; DeleteLocalRef])
  /\ held registered = 2%nat
  /\ listenerObject_ registered = listenerClass_ registered.
Proof.
  assert (calls set_up constructed
          = Some (registered,
                  [NewGlobalRef ListenerRef true; GetObjectClass true;
                   NewGlobalRef ClassRef true; DeleteLocalRef;
                   DeleteGlobalRef ListenerRef; DeleteGlobalRef ClassRef;
                   NewGlobalRef ListenerRef true; GetObjectClass true;
                   NewGlobalRef ClassRef true; DeleteLocalRef]))
    as E by (vm_compute; reflexivity).
  split; [exact E|].
  destruct (global_refs_are_balanced set_up registered _ E)
    as (Hbal & Heq & _).
  split; [simpl in Hbal; lia | exact Heq].
Defined.

(** X25. [cleanup] ends the bridge's service.  In every state the
    life-cycle calls reach, [cleanup] on a thread that gets a JNI
    environment comes back with both references released, the JVM
    forgotten and the event queue emptied; from then on a post is dropped,
    and [initialize] alone does not change that: the listener has to be
    registered again.  On a thread that gets no environment, [cleanup]
    has a result exactly when no listener is registered. *)
Theorem cleanup_ends_service (cs : list Call) (b : Bridge)
        (made : list JniCall) (e : Event) (p : Pool) :
  calls cs constructed = Some (b, made) ->
  (exists b' made',
     cleanup true b = Some (b', made')
     /\ held b' = 0%nat
     /\ jvm_ b' = false
     /\ eventQueue_ b' = []
     /\ sum_list_with deleted made' = held b
     /\ postEvent e (b', p) = (b', p)
     /\ postEvent e (initialize true b', p) = (initialize true b', p))
  /\ (cleanup false b = None <-> isInitialized b = true).
Proof.
  intros Hrun.
  destruct (refs_inv_calls cs _ _ _ refs_inv_constructed Hrun)
    as [[Heq Hjvm] _].
  destruct b as [jvm obj cls tm q sp flag]. cbn in Heq, Hjvm. subst cls.
  unfold cleanup, isInitialized, held. cbn.
  destruct jvm, obj; cbn; try (specialize (Hjvm eq_refl); discriminate);
    (split; [eexists; eexists; repeat split
            | split; intros H; try reflexivity; discriminate]).
Qed.

Lemma cleanup_ends_service_witness :
  calls set_up constructed
  = Some (registered,
          [NewGlobalRef ListenerRef true; GetObjectClass true;
           NewGlobalRef ClassRef true; DeleteLocalRef;
           DeleteGlobalRef ListenerRef; DeleteGlobalRef ClassRef;
           NewGlobalRef ListenerRef true; GetObjectClass true;
           NewGlobalRef ClassRef true; DeleteLocalRef])
  /\ cleanup false registered = None
  /\ exists b' made', cleanup true registered = Some (b', made')
                      /\ held b' = 0%nat.
Proof.
  assert (calls set_up constructed
          = Some (registered,
                  [NewGlobalRef ListenerRef true; GetObjectClass true;
                   NewGlobalRef ClassRef true; DeleteLocalRef;
                   DeleteGlobalRef ListenerRef; DeleteGlobalRef ClassRef;
                   NewGlobalRef ListenerRef true; GetObjectClass true;
                   NewGlobalRef ClassRef true; DeleteLocalRef]))
    as E by (vm_compute; reflexivity).
  split; [exact E|].
  destruct (cleanup_ends_service set_up registered _ first_event
              (ThreadManager.initializeThreadPool 1) E)
    as ((b' & made' & Hc & Hh & _) & Hnone).
  split; [apply Hnone; reflexivity|].
  exists b', made'. split; [exact Hc | exact Hh].
Defined.

End IOBridgeFacts.

Section SocketManagerFacts.
Import Char8 SocketManager.

(** *** Starting twice *)

(** C6. [startServer] on a server that is already running returns false
    and changes nothing: the listening socket, the running flag, the client
    list and every connection in it are as before, and no call is made. *)
Theorem startServer_while_running_changes_nothing (env : StartEnv) (port : Z)
        (st : Server) :
  isRunning_ st = true ->
  startServer env port st = (false, st, []).
Proof. intros H. unfold startServer. now rewrite H. Qed.

Lemma startServer_while_running_changes_nothing_witness :
  isRunning_ two_clients = true
  /\ startServer fresh_socket 9000 two_clients = (false, two_clients, []).
Proof.
  split; [reflexivity|].
  apply (startServer_while_running_changes_nothing fresh_socket 9000
           two_clients).
  reflexivity.
Defined.

(** *** Removal *)

Lemma set_clients_same (st : Server) : set_clients (clients_ st) st = st.
Proof. destruct st; reflexivity. Qed.

Lemma detach_absent (fd : Z) (clients : list (option ClientConnection)) :
  ~ In fd (descriptors clients) -> detach fd clients = (None, clients).
Proof.
  induction clients as [|[c|] rest IH]; simpl; intros Hnot.
  - reflexivity.
  - destruct (socketFd c =? fd) eqn:E.
    + apply Z.eqb_eq in E. tauto.
    + rewrite IH by tauto. reflexivity.
  - rewrite IH by tauto. reflexivity.
Qed.

Lemma detach_descriptors (fd : Z) (clients : list (option ClientConnection)) :
  forall x, In x (descriptors (snd (detach fd clients))) ->
            In x (descriptors clients).
Proof.
  induction clients as [|[c|] rest IH]; simpl; intros x Hx.
  - exact Hx.
  - destruct (socketFd c =? fd) eqn:E; simpl in Hx.
    + right. exact Hx.
    + destruct (detach fd rest) as [found rest'] eqn:Ed. simpl in *.
      destruct Hx as [Hx | Hx]; [now left | right; auto].
  - destruct (detach fd rest) as [found rest'] eqn:Ed. simpl in *. auto.
Qed.

Lemma detach_removes (fd : Z) (clients : list (option ClientConnection)) :
  List.NoDup (descriptors clients) ->
  ~ In fd (descriptors (snd (detach fd clients))).
Proof.
  induction clients as [|[c|] rest IH]; simpl; intros Hnd.
  - tauto.
  - apply NoDup_cons_iff in Hnd as [Hc Hnd].
    destruct (socketFd c =? fd) eqn:E; simpl.
    + apply Z.eqb_eq in E. subst fd. exact Hc.
    + destruct (detach fd rest) as [found rest'] eqn:Ed. simpl.
      apply Z.eqb_neq in E. specialize (IH Hnd). simpl in IH. tauto.
  - destruct (detach fd rest) as [found rest'] eqn:Ed. simpl.
    specialize (IH Hnd). exact IH.
Qed.

Lemma detach_found (fd : Z) (clients : list (option ClientConnection))
      (c : ClientConnection) :
  fst (detach fd clients) = Some c ->
  exists before c0 after,
    clients = before ++ Some c0 :: after
    /\ ~ In fd (descriptors before)
    /\ socketFd c0 = fd
    /\ c = {| socketFd := fd; handlerThread := handlerThread c0;
              isConnected := false |}
    /\ snd (detach fd clients) = before ++ after.
Proof.
  induction clients as [|[c1|] rest IH]; simpl; intros Hf.
  - discriminate.
  - destruct (socketFd c1 =? fd) eqn:E.
    + apply Z.eqb_eq in E. simpl in Hf. injection Hf as <-.
      exists [], c1, rest. simpl. rewrite E. auto.
    + apply Z.eqb_neq in E.
      destruct (detach fd rest) as [found rest'] eqn:Ed. simpl in *.
      destruct (IH Hf) as (before & c0 & after & -> & Hb & Hc & He & Hs).
      exists (Some c1 :: before), c0, after. simpl.
      repeat split; auto; try congruence. tauto.
  - destruct (detach fd rest) as [found rest'] eqn:Ed. simpl in *.
    destruct (IH Hf) as (before & c0 & after & -> & Hb & Hc & He & Hs).
    exists (None :: before), c0, after. simpl.
    repeat split; auto; congruence.
Qed.

Lemma removeClient_absent (self : ThreadId) (fd : Z) (st : Server) :
  ~ In fd (descriptors (clients_ st)) ->
  removeClient self fd st = (st, [], Returned).
Proof.
  intros H. unfold removeClient. rewrite (detach_absent _ _ H).
  now rewrite set_clients_same.
Qed.

(** X2. A second removal of the same descriptor does nothing at all,
    whoever makes either call and however the first one ended. *)
Lemma removeClient_twice (self self' : ThreadId) (fd : Z) (st : Server) :
  List.NoDup (descriptors (clients_ st)) ->
  let st1 := fst (fst (removeClient self fd st)) in
  removeClient self' fd st1 = (st1, [], Returned).
Proof.
  intros Hnd st1. apply removeClient_absent.
  assert (clients_ st1 = snd (detach fd (clients_ st))) as ->.
  { subst st1. unfold removeClient.
    destruct (detach fd (clients_ st)) as [[c|] rest]; simpl.
    - destruct (handlerThread c) as [t|]; [destruct (Nat.eqb t self)|];
        reflexivity.
    - reflexivity. }
  apply detach_removes. exact Hnd.
Qed.

Lemma detach_at (fd : Z) (t : option ThreadId) (connected : bool)
      (before after : list (option ClientConnection)) :
  ~ In fd (descriptors before) ->
  detach fd (before ++ Some {| socketFd := fd; handlerThread := t;
                               isConnected := connected |} :: after)
  = (Some {| socketFd := fd; handlerThread := t; isConnected := false |},
     before ++ after).
Proof.
  induction before as [|[c|] rest IH]; simpl; intros Hn.
  - now rewrite Z.eqb_refl.
  - destruct (socketFd c =? fd) eqn:E; [apply Z.eqb_eq in E; tauto|].
    rewrite IH by tauto. reflexivity.
  - rewrite IH by tauto. reflexivity.
Qed.

(** X3. Called by a thread other than the connection's reader, the first
    removal closes the descriptor, joins the reader and raises one
    connection-count event. *)
Lemma removeClient_by_other_thread (self t : ThreadId) (fd : Z) (st : Server)
      (before after : list (option ClientConnection)) :
  clients_ st =
    before ++ Some {| socketFd := fd; handlerThread := Some t;
                      isConnected := true |} :: after ->
  ~ In fd (descriptors before) ->
  0 <= fd -> t <> self -> ioBridge_ st = true ->
  let st1 := set_clients (before ++ after) st in
  removeClient self fd st
  = (st1,
     [EClose fd; EJoin t;
      EPostInt "socket_client_count" (Z.of_nat (getConnectedClientCount st1))],
     Returned).
Proof.
  intros Hcl Hb Hfd Hne Hio st1.
  unfold removeClient. rewrite Hcl, (detach_at _ _ _ _ _ Hb).
  cbn [socketFd handlerThread].
  assert ((0 <=? fd) = true) as -> by (apply Z.leb_le; exact Hfd).
  assert (Nat.eqb t self = false) as -> by (apply Nat.eqb_neq; exact Hne).
  unfold notifyConnectionChange. fold st1.
  assert (ioBridge_ st1 = true) as -> by exact Hio.
  reflexivity.
Qed.

(** Called by the connection's reader itself, the first removal detaches
    the entry and closes the descriptor, and ends in the failed join. *)
Lemma removeClient_by_reader_thread (self : ThreadId) (fd : Z) (st : Server)
      (before after : list (option ClientConnection)) :
  clients_ st =
    before ++ Some {| socketFd := fd; handlerThread := Some self;
                      isConnected := true |} :: after ->
  ~ In fd (descriptors before) ->
  0 <= fd ->
  removeClient self fd st
  = (set_clients (before ++ after) st, [EClose fd], SystemError).
Proof.
  intros Hcl Hb Hfd.
  unfold removeClient. rewrite Hcl, (detach_at _ _ _ _ _ Hb).
  cbn [socketFd handlerThread].
  assert ((0 <=? fd) = true) as -> by (apply Z.leb_le; exact Hfd).
  now rewrite Nat.eqb_refl.
Qed.

Lemma removeClient_twice_witness :
  List.NoDup (descriptors (clients_ two_clients))
  /\ removeClient 1%nat 7 (fst (fst (removeClient 11%nat 7 two_clients)))
     = (fst (fst (removeClient 11%nat 7 two_clients)), [], Returned).
Proof.
  assert (List.NoDup (descriptors (clients_ two_clients))) as H.
  { simpl. repeat constructor; simpl; intuition discriminate. }
  split; [exact H|].
  apply (removeClient_twice 11%nat 1%nat 7 two_clients H).
Defined.

Lemma removeClient_by_other_thread_witness :
  removeClient 11%nat 7 two_clients
  = (set_clients
       [Some {| socketFd := 8; handlerThread := Some 2%nat;
                isConnected := true |}] two_clients,
     [EClose 7; EJoin 1%nat; EPostInt "socket_client_count" 1], Returned).
Proof.
  apply (removeClient_by_other_thread 11%nat 1%nat 7 two_clients []
           [Some {| socketFd := 8; handlerThread := Some 2%nat;
                    isConnected := true |}]).
  - reflexivity.
  - simpl. tauto.
  - lia.
  - discriminate.
  - reflexivity.
Defined.

(** C5, where the reader thread itself makes the first removal, as at the
    end of [handleClient]: the entry is marked and detached and the
    descriptor closed, but the join is a join of the calling thread and
    fails, so the reader is not joined and no connection-count event is
    raised.  The second call does nothing. *)
Theorem removeClient_on_reader_thread :
  clients_ one_client =
    [Some {| socketFd := 7; handlerThread := Some 1%nat; isConnected := true |}]
  /\ removeClient 1%nat 7 one_client = (listening, [EClose 7], SystemError)
  /\ removeClient 1%nat 7 listening = (listening, [], Returned).
Proof. repeat split. Qed.

(** *** The reader loop *)

Lemma reader_loop_short_prefix (r : Recv) script bridge posted :
  received r <> 4 ->
  reader_loop (r :: script) Prefix bridge posted = Some posted.
Proof.
  intros H. cbn [reader_loop].
  assert ((received r =? 4) = false) as -> by (apply Z.eqb_neq; exact H).
  reflexivity.
Qed.

Lemma reader_loop_bad_length (r : Recv) script bridge posted :
  received r = 4 ->
  ntohl_bytes (first_z 4 (data r)) = 0
  \/ BUFFER_SIZE < ntohl_bytes (first_z 4 (data r)) ->
  reader_loop (r :: script) Prefix bridge posted = Some posted.
Proof.
  intros H4 Hbad. cbn [reader_loop]. rewrite H4. cbn [Z.eqb Pos.eqb negb].
  destruct Hbad as [-> | Hbig]; [reflexivity|].
  assert ((BUFFER_SIZE <? ntohl_bytes (first_z 4 (data r))) = true) as ->
    by (apply Z.ltb_lt; exact Hbig).
  now rewrite orb_true_r.
Qed.

Lemma reader_loop_short_body (r : Recv) script messageLen totalReceived buffer
      bridge posted :
  received r <= 0 ->
  reader_loop (r :: script) (Body messageLen totalReceived buffer) bridge posted
  = Some posted.
Proof.
  intros H. cbn [reader_loop].
  assert ((received r <=? 0) = true) as -> by (apply Z.leb_le; exact H).
  reflexivity.
Qed.

(** However the loop is left, [handleClient] ends in
    [removeClient(clientSocket)] on its own thread, and the client list
    loses the entry of that descriptor and no other. *)
Lemma handleClient_removes_own_entry (self : ThreadId) (clientSocket : Z)
      (script : list Recv) (st st' : Server) (effects : list Effect)
      (outcome : Outcome) :
  handleClient self clientSocket script st = Some (st', effects, outcome) ->
  clients_ st' = snd (detach clientSocket (clients_ st)).
Proof.
  unfold handleClient.
  destruct (if isRunning_ st then _ else _) as [posted|]; [|discriminate].
  unfold removeClient.
  destruct (detach clientSocket (clients_ st)) as [[c|] rest]; simpl.
  - destruct (handlerThread c) as [t|]; [destruct (Nat.eqb t self)|];
      intros H; injection H as <- _ _; reflexivity.
  - intros H; injection H as <- _ _; reflexivity.
Qed.

(** C7, at a length prefix of zero sent by the client on descriptor 7,
    while a second client is connected on descriptor 8.  The loop is left
    and nothing is forwarded; the removal that follows runs on the reader
    thread, detaches the entry of descriptor 7 only and closes that
    descriptor, and then fails in the join of the calling thread:
    [handleClient] is left by the [std::system_error], not by a return. *)
Theorem handleClient_zero_length_prefix :
  handleClient 1%nat 7 [zero_length_prefix] two_clients
  = Some (set_clients
            [Some {| socketFd := 8; handlerThread := Some 2%nat;
                     isConnected := true |}] two_clients,
          [EClose 7], SystemError).
Proof. reflexivity. Qed.

(** *** Frames on the wire *)

Lemma ntohl_htonl (n : Z) :
  0 <= n < 4294967296 -> ntohl_bytes (htonl_bytes n) = n.
Proof.
  intros Hn. unfold ntohl_bytes, htonl_bytes.
  rewrite !uchar_to_char. rewrite (Z.mod_small n) by lia.
  Z.div_mod_to_equations. lia.
Qed.

Lemma skip_z_all (n : Z) (l : list ascii) :
  Z.of_nat (length l) <= n -> skip_z n l = [].
Proof. intros H. unfold skip_z. apply skipn_all2. lia. Qed.

Lemma first_skip_z (t c : Z) (l : list ascii) :
  0 <= t -> 0 <= c ->
  first_z c (skip_z t l) ++ skip_z (t + c) l = skip_z t l.
Proof.
  intros Ht Hc. unfold first_z, skip_z.
  rewrite Z2Nat.inj_add by lia.
  rewrite (Nat.add_comm (Z.to_nat t)), <- skipn_skipn.
  apply firstn_skipn.
Qed.

Lemma total_nonneg (chunks : list Z) :
  Forall (fun c => 0 <= c) chunks -> 0 <= total chunks.
Proof. induction 1; simpl; lia. Qed.

Lemma send_payload_chunks (chunks rest : list Z) (message : list ascii) :
  forall totalSent wire,
    Forall (fun c => 0 <= c) chunks ->
    0 <= totalSent ->
    totalSent + total chunks = Z.of_nat (length message) ->
    send_payload (chunks ++ rest) message totalSent wire
    = Some (wire ++ skip_z totalSent message, false).
Proof.
  induction chunks as [|c chunks IH]; intros totalSent wire Hpos Ht Hsum.
  - simpl in Hsum. rewrite skip_z_all, app_nil_r by lia.
    assert ((totalSent <? Z.of_nat (length message)) = false) as E
      by (apply Z.ltb_ge; lia).
    destruct rest; simpl; rewrite E; reflexivity.
  - apply Forall_cons_iff in Hpos as [Hc Hpos].
    pose proof (total_nonneg _ Hpos) as Hrest.
    cbn [total fold_right] in Hsum. fold (total chunks) in Hsum.
    cbn [app send_payload].
    destruct (totalSent <? Z.of_nat (length message)) eqn:E.
    + assert ((c <? 0) = false) as -> by (apply Z.ltb_ge; exact Hc).
      rewrite IH by (auto; lia).
      rewrite <- app_assoc, first_skip_z by lia. reflexivity.
    + apply Z.ltb_ge in E. rewrite skip_z_all, app_nil_r by lia. reflexivity.
Qed.

Lemma send_frame_in_full (chunks rest : list Z) (message : list ascii) :
  Forall (fun c => 0 <= c) chunks ->
  total chunks = Z.of_nat (length message) ->
  send_frame (4 :: chunks ++ rest) message
  = Some (htonl_bytes (Z.of_nat (length message)) ++ message, false).
Proof.
  intros Hpos Hsum. unfold send_frame. cbn [Z.eqb Pos.eqb negb].
  rewrite send_payload_chunks by (auto; lia). reflexivity.
Qed.

(** C4, as the code has it.  To each client of the snapshot whose socket
    takes the four bytes of the prefix at once and the payload in any
    number of pieces, a message of fewer than 2^32 bytes goes out as
    exactly 4 + len(payload) bytes: a big-endian prefix that decodes to
    len(payload), then the payload.  The sender knows no maximum frame
    size: the payload may be empty or of any greater length. *)
Theorem broadcast_sends_one_frame_per_client (net : Z -> list Z) (st : Server)
        (message : list ascii) (fd : Z) (chunks rest : list Z) :
  In fd (snapshot (clients_ st)) ->
  net fd = 4 :: chunks ++ rest ->
  Forall (fun c => 0 <= c) chunks ->
  total chunks = Z.of_nat (length message) ->
  Z.of_nat (length message) < 4294967296 ->
  exists wire,
    In (fd, Some (wire, false)) (transmissions net message st)
    /\ Z.of_nat (length wire) = 4 + Z.of_nat (length message)
    /\ ntohl_bytes (firstn 4 wire) = Z.of_nat (length message)
    /\ skipn 4 wire = message.
Proof.
  intros Hin Hnet Hpos Hsum Hlen.
  exists (htonl_bytes (Z.of_nat (length message)) ++ message).
  split; [|split; [|split]].
  - unfold transmissions. apply in_map_iff. exists fd. split; [|exact Hin].
    rewrite Hnet, send_frame_in_full by assumption. reflexivity.
  - rewrite length_app. unfold htonl_bytes. simpl. lia.
  - change (firstn 4 (htonl_bytes (Z.of_nat (length message)) ++ message))
      with (htonl_bytes (Z.of_nat (length message))).
    apply ntohl_htonl. lia.
  - reflexivity.
Qed.

Lemma broadcast_sends_one_frame_per_client_witness :
  exists wire,
    In (7, Some (wire, false)) (transmissions (fun _ => [4; 5]) hello two_clients)
    /\ Z.of_nat (length wire) = 4 + Z.of_nat (length hello)
    /\ ntohl_bytes (firstn 4 wire) = Z.of_nat (length hello)
    /\ skipn 4 wire = hello.
Proof.
  apply (broadcast_sends_one_frame_per_client (fun _ => [4; 5]) two_clients
           hello 7 [5] []).
  - simpl. left. reflexivity.
  - reflexivity.
  - repeat constructor; lia.
  - reflexivity.
  - simpl. lia.
Defined.

(** C4, as the design states it, fails for its last part: a payload of
    [BUFFER_SIZE] bytes goes out as one frame like any other. *)
Lemma oversize_message_sent_as_one_frame : ~ oversize_never_one_frame.
Proof.
  intros H.
  apply (H [4; 4096] (repeat "a"%char 4096)).
  - rewrite repeat_length. unfold BUFFER_SIZE. lia.
  - apply (send_frame_in_full [4096] []).
    + repeat constructor; lia.
    + rewrite repeat_length. reflexivity.
Qed.

(** *** Frames read back *)



Lemma htonl_bytes_first (n : Z) : first_z 4 (htonl_bytes n) = htonl_bytes n.
Proof. reflexivity. Qed.



(** X18. The sender knows no bounds, the reader does: a message that is
    empty or longer than 4096 bytes goes out as a frame like any other,
    and a reader of this program that gets the prefix of that frame leaves
    its loop at once and forwards nothing. *)
Theorem frame_written_is_refused (message : list ascii)
        (chunks unsent : list Z) (unread : list Recv)
        (bridge : bool) (posted : list Effect) :
  Z.of_nat (length message) = 0
  \/ BUFFER_SIZE < Z.of_nat (length message) < 4294967296 ->
  Forall (fun c => 0 <= c) chunks ->
  total chunks = Z.of_nat (length message) ->
  let wire := htonl_bytes (Z.of_nat (length message)) ++ message in
  send_frame (4 :: chunks ++ unsent) message = Some (wire, false)
  /\ reader_loop ({| received := 4; data := firstn 4 wire |} :: unread)
       Prefix bridge posted
     = Some posted.
Proof.
  intros Hlen Hchunks Htotal wire.
  split; [apply send_frame_in_full; assumption|].
  unfold wire. replace (firstn 4 (htonl_bytes (Z.of_nat (length message))
                                  ++ message))
    with (htonl_bytes (Z.of_nat (length message))) by reflexivity.
  apply reader_loop_bad_length; [reflexivity|]. cbn [data].
  rewrite htonl_bytes_first, ntohl_htonl; unfold BUFFER_SIZE in *; lia.
Qed.

Lemma frame_written_is_refused_witness :
  send_frame [4] [] = Some (htonl_bytes 0, false)
  /\ reader_loop [{| received := 4; data := htonl_bytes 0 |}] Prefix true []
     = Some [].
Proof.
  apply (frame_written_is_refused [] [] [] [] true []).
  - left. reflexivity.
  - constructor.
  - reflexivity.
Defined.

(** *** A round of the send thread *)

Lemma remove_all_nil (self : ThreadId) (st : Server) :
  remove_all self [] st = (st, [], Returned).
Proof. reflexivity. Qed.

Lemma round_of_full_frames (sockets : list Z) (frames : Z -> option (list ascii * bool))
      (wire : list ascii) :
  Forall (fun fd => frames fd = Some (wire, false)) sockets ->
  let sent := map (fun fd => (fd, frames fd)) sockets in
  forallb (fun r => match snd r with Some _ => true | None => false end) sent
  = true
  /\ flat_map (fun r => match snd r with
                        | Some (wire, _) => [ESend (fst r) wire]
                        | None => []
                        end) sent
     = map (fun fd => ESend fd wire) sockets
  /\ flat_map (fun r => match snd r with
                        | Some (_, true) => [fst r]
                        | _ => []
                        end) sent
     = [].
Proof.
  induction 1 as [|fd sockets Hfd _ IH]; simpl; [auto|].
  destruct IH as (IH1 & IH2 & IH3). rewrite Hfd. simpl.
  rewrite IH1, IH2, IH3. auto.
Qed.

(** X19. A round of the send thread over sockets that take their frames
    in full: the message at the head of the queue leaves the queue and goes
    to every connected client once, in the order of the client list, as
    the prefix followed by the message; nobody is removed and nothing else
    changes. *)
Theorem sendWorker_round_reaches_every_client (self : ThreadId)
        (net : Z -> list Z) (st : Server) (message : list ascii)
        (queue : list (list ascii)) :
  sendQueue_ st = message :: queue ->
  (forall fd, In fd (snapshot (clients_ st)) ->
     exists chunks rest,
       net fd = 4 :: chunks ++ rest
       /\ Forall (fun c => 0 <= c) chunks
       /\ total chunks = Z.of_nat (length message)) ->
  sendWorker_round self net st
  = Some (set_sendQueue queue st,
          map (fun fd =>
                 ESend fd (htonl_bytes (Z.of_nat (length message)) ++ message))
              (snapshot (clients_ st)),
          Returned).
Proof.
  intros Hq Hnet. unfold sendWorker_round. rewrite Hq.
  unfold transmissions. cbn [clients_ set_sendQueue].
  assert (Forall (fun fd => send_frame (net fd) message
                            = Some (htonl_bytes (Z.of_nat (length message))
                                    ++ message, false))
            (snapshot (clients_ st))) as Hall.
  { apply Stdlib.Lists.List.Forall_forall. intros fd Hin.
    destruct (Hnet fd Hin) as (chunks & rest & -> & Hc & Ht).
    now apply send_frame_in_full. }
  destruct (round_of_full_frames _ (fun fd => send_frame (net fd) message)
              _ Hall) as (H1 & H2 & H3).
  cbv zeta in H1, H2, H3. rewrite H1, H2, H3, remove_all_nil.
  now rewrite app_nil_r.
Qed.

Lemma sendWorker_round_reaches_every_client_witness :
  sendQueue_ (set_sendQueue [hello] two_clients) = hello :: []
  /\ sendWorker_round 11%nat (fun _ => [4; 2; 3])
       (set_sendQueue [hello] two_clients)
     = Some (two_clients,
             [ESend 7 (htonl_bytes 5 ++ hello);
              ESend 8 (htonl_bytes 5 ++ hello)],
             Returned).
Proof.
  split; [reflexivity|].
  apply (sendWorker_round_reaches_every_client 11%nat (fun _ => [4; 2; 3])
           (set_sendQueue [hello] two_clients) hello []); [reflexivity|].
  intros fd _. exists [2; 3], []. split; [reflexivity|].
  split; [repeat (constructor; [lia|]); constructor | reflexivity].
Defined.

(** *** The client list between accepts and removals *)

Lemma detach_length (fd : Z) (clients : list (option ClientConnection)) :
  (length (snd (detach fd clients)) <= length clients)%nat.
Proof.
  induction clients as [|[c|] rest IH]; simpl; [lia| |].
  - destruct (socketFd c =? fd); [simpl; lia|].
    destruct (detach fd rest) as [found rest']. simpl in *. lia.
  - destruct (detach fd rest) as [found rest']. simpl in *. lia.
Qed.

Lemma detach_NoDup (fd : Z) (clients : list (option ClientConnection)) :
  List.NoDup (descriptors clients) ->
  List.NoDup (descriptors (snd (detach fd clients))).
Proof.
  induction clients as [|[c|] rest IH]; simpl; intros Hnd; [exact Hnd| |].
  - apply NoDup_cons_iff in Hnd as [Hnotin Hnd].
    destruct (socketFd c =? fd); [exact Hnd|].
    pose proof (detach_descriptors fd rest) as Hsub.
    destruct (detach fd rest) as [found rest']. simpl in *.
    apply NoDup_cons_iff. split; [|apply IH; exact Hnd].
    intros Hin. apply Hnotin, Hsub, Hin.
  - destruct (detach fd rest) as [found rest']. simpl in *.
    apply IH, Hnd.
Qed.

Lemma detach_Forall (P : option ClientConnection -> Prop) (fd : Z)
      (clients : list (option ClientConnection)) :
  Forall P clients -> Forall P (snd (detach fd clients)).
Proof.
  induction 1 as [|[c|] rest Hc Hrest IH]; simpl; [constructor| |].
  - destruct (socketFd c =? fd); [exact Hrest|].
    destruct (detach fd rest) as [found rest']. simpl in *.
    constructor; assumption.
  - destruct (detach fd rest) as [found rest']. simpl in *.
    constructor; assumption.
Qed.

Lemma removeClient_clients (self : ThreadId) (fd : Z) (st : Server) :
  clients_ (fst (fst (removeClient self fd st)))
  = snd (detach fd (clients_ st)).
Proof.
  unfold removeClient. destruct (detach fd (clients_ st)) as [[c|] clients];
    [|reflexivity].
  destruct (handlerThread c) as [t|]; [|reflexivity].
  destruct (Nat.eqb t self); reflexivity.
Qed.

Lemma descriptors_app (a b : list (option ClientConnection)) :
  descriptors (a ++ b) = descriptors a ++ descriptors b.
Proof. unfold descriptors. apply flat_map_app. Qed.

Lemma live_all_count (clients : list (option ClientConnection)) :
  Forall live clients ->
  length (filter counts clients) = length clients
  /\ snapshot clients = descriptors clients
  /\ Forall (fun c => joinable c = true) clients.
Proof.
  induction 1 as [|c rest (fd & t & -> & Hfd) _ (IH1 & IH2 & IH3)];
    [repeat split; constructor|].
  split; [|split].
  - rewrite filter_cons_True by reflexivity. simpl. now rewrite IH1.
  - unfold snapshot, descriptors in *. simpl.
    destruct (0 <=? fd) eqn:E; [|apply Z.leb_gt in E; lia].
    simpl. now rewrite IH2.
  - constructor; [reflexivity | exact IH3].
Qed.

Lemma clients_inv_change (c : Change) (st st' : Server) :
  clients_inv st -> change c st = Some st' -> clients_inv st'.
Proof.
  intros (Hlen & Hnd & Hall) Hc. destruct c as [fd t | self fd]; simpl in Hc.
  - destruct (0 <=? fd) eqn:Efd; [|discriminate].
    destruct (existsb (Z.eqb fd) (descriptors (clients_ st))) eqn:Ein;
      [discriminate|].
    injection Hc as <-. unfold acceptConnection.
    destruct (MAX_CLIENTS <=? Z.of_nat (length (clients_ st))) eqn:Efull;
      [repeat split; assumption|].
    apply Z.leb_gt in Efull. apply Z.leb_le in Efd.
    unfold clients_inv. cbn [fst clients_ set_clients].
    split; [|split].
    + rewrite length_app. simpl. lia.
    + rewrite descriptors_app. simpl.
      apply Stdlib.Lists.List.NoDup_app; [exact Hnd | |].
      * constructor; [intros [] | constructor].
      * intros x Hx [<- | []].
        assert (existsb (Z.eqb fd) (descriptors (clients_ st)) = true)
          as Habs; [|congruence].
        apply existsb_exists. exists fd. split; [exact Hx | apply Z.eqb_refl].
    + apply Forall_app. split; [exact Hall|].
      constructor; [|constructor]. exists fd, t. auto.
  - injection Hc as <-. unfold clients_inv. rewrite removeClient_clients.
    split; [|split].
    + pose proof (detach_length fd (clients_ st)). lia.
    + apply detach_NoDup, Hnd.
    + apply detach_Forall, Hall.
Qed.

Lemma clients_inv_changes (cs : list Change) :
  forall st st', clients_inv st -> changes cs st = Some st' -> clients_inv st'.
Proof.
  induction cs as [|c cs IH]; intros st st' Hinv Hrun; simpl in Hrun.
  - now injection Hrun as <-.
  - destruct (change c st) as [st1|] eqn:Ec; [|discriminate].
    eapply IH; [|exact Hrun]. eapply clients_inv_change; eauto.
Qed.

Lemma clients_inv_empty (st : Server) : clients_ st = [] -> clients_inv st.
Proof.
  intros H. unfold clients_inv. rewrite H. simpl.
  split; [unfold MAX_CLIENTS; lia|]. split; constructor.
Qed.

(** X20. However connections come and go, the server holds at most
    [MAX_CLIENTS] of them, no descriptor is listed twice, every entry counts
    as connected, so [getConnectedClientCount] is the length of the list,
    and the send thread's snapshot is the whole list. *)
Theorem client_list_stays_within_bounds (cs : list Change) (st0 st : Server) :
  clients_ st0 = [] ->
  changes cs st0 = Some st ->
  Z.of_nat (length (clients_ st)) <= MAX_CLIENTS
  /\ List.NoDup (descriptors (clients_ st))
  /\ getConnectedClientCount st = length (clients_ st)
  /\ snapshot (clients_ st) = descriptors (clients_ st).
Proof.
  intros H0 Hrun.
  destruct (clients_inv_changes cs _ _ (clients_inv_empty _ H0) Hrun)
    as (Hlen & Hnd & Hall).
  destruct (live_all_count _ Hall) as (Hc & Hs & _).
  repeat split; assumption.
Qed.

Lemma client_list_stays_within_bounds_witness :
  clients_ listening = []
  /\ changes comings_and_goings listening = Some three_came_one_left
  /\ getConnectedClientCount three_came_one_left = 2%nat
  /\ snapshot (clients_ three_came_one_left) = [8; 7].
Proof.
  assert (changes comings_and_goings listening = Some three_came_one_left)
    as E by (vm_compute; reflexivity).
  split; [reflexivity|]. split; [exact E|].
  destruct (client_list_stays_within_bounds comings_and_goings listening
              three_came_one_left eq_refl E) as (_ & _ & Hc & Hs).
  split; [exact Hc | exact Hs].
Defined.

(** *** Stopping *)

(** X21. [stopServer] on a running server that still holds a connection
    does not return: it closes the sockets, and [clients_.clear()] then
    destroys a connection whose reader thread was never joined, which
    ends the process in [std::terminate] before the accept and send
    threads are joined. *)
Theorem stopServer_with_a_client_ends_in_terminate
        (cs : list Change) (st0 st : Server) :
  clients_ st0 = [] ->
  changes cs st0 = Some st ->
  isRunning_ st = true ->
  clients_ st <> [] ->
  snd (stopServer st) = Terminate
  /\ ~ In SNotifyAll (snd (fst (stopServer st)))
  /\ forall t, ~ In (SJoin t) (snd (fst (stopServer st))).
Proof.
  intros H0 Hrun Hon Hne.
  destruct (clients_inv_changes cs _ _ (clients_inv_empty _ H0) Hrun)
    as (_ & _ & Hall).
  destruct (live_all_count _ Hall) as (_ & _ & Hj).
  unfold stopServer. rewrite Hon. cbn [negb].
  assert (existsb joinable (clients_ st) = true) as Hex.
  { destruct (clients_ st) as [|c rest]; [congruence|].
    apply Forall_cons in Hj as [Hc _]. simpl. now rewrite Hc. }
  rewrite Hex. cbn [fst snd]. split; [reflexivity|].
  assert (forall call,
            In call ((if 0 <=? serverSocket_ st
                      then [SClose (serverSocket_ st)] else [])
                     ++ flat_map close_client (clients_ st)) ->
            exists fd, call = SClose fd) as Hclose.
  { intros call Hin. apply in_app_or in Hin as [Hin | Hin].
    - destruct (0 <=? serverSocket_ st); [|contradiction].
      destruct Hin as [<- | []]. eauto.
    - apply in_flat_map in Hin as ([c|] & _ & Hin); [|contradiction].
      simpl in Hin. destruct (0 <=? socketFd c); [|contradiction].
      destruct Hin as [<- | []]. eauto. }
  split.
  - intros Hin. destruct (Hclose _ Hin) as [fd Hfd]. discriminate.
  - intros t Hin. destruct (Hclose _ Hin) as [fd Hfd]. discriminate.
Qed.

Lemma stopServer_with_a_client_ends_in_terminate_witness :
  clients_ listening = []
  /\ changes comings_and_goings listening = Some three_came_one_left
  /\ isRunning_ three_came_one_left = true
  /\ clients_ three_came_one_left <> []
  /\ snd (stopServer three_came_one_left) = Terminate.
Proof.
  assert (changes comings_and_goings listening = Some three_came_one_left)
    as E by (vm_compute; reflexivity).
  assert (clients_ three_came_one_left <> []) as Hne by discriminate.
  split; [reflexivity|]. split; [exact E|]. split; [reflexivity|].
  split; [exact Hne|].
  exact (proj1 (stopServer_with_a_client_ends_in_terminate
                  comings_and_goings listening three_came_one_left
                  eq_refl E eq_refl Hne)).
Defined.



(** *** Starting *)

(** X28. [startServer] on a stopped server leaks nothing: when it
    returns true the server runs on the socket the system gave, with the
    accept and the send thread started and nothing closed; when it returns
    false the server is not running, no thread was started, and the
    socket, if one was created, has been closed and forgotten.  The client
    list and the send queue are untouched either way. *)
Theorem startServer_leaks_nothing (env : StartEnv) (port : Z) (st : Server) :
  isRunning_ st = false ->
  let result := fst (fst (startServer env port st)) in
  let st' := snd (fst (startServer env port st)) in
  let effects := snd (startServer env port st) in
  clients_ st' = clients_ st
  /\ sendQueue_ st' = sendQueue_ st
  /\ isRunning_ st' = result
  /\ (result = true ->
      serverSocket_ st' = socket_ret env /\ 0 <= socket_ret env
      /\ port_ st' = port /\ stopSending_ st' = false
      /\ In (ESpawn (accept_thread env)) effects
      /\ In (ESpawn (send_thread env)) effects
      /\ forall fd, ~ In (EClose fd) effects)
  /\ (result = false ->
      serverSocket_ st' < 0
      /\ (0 <= socket_ret env -> In (EClose (socket_ret env)) effects)
      /\ forall t, ~ In (ESpawn t) effects).
Proof.
  intros Hoff result st' effects. subst result st' effects.
  unfold startServer. rewrite Hoff.
  destruct (socket_ret env <? 0) eqn:E0;
    [apply Z.ltb_lt in E0 | apply Z.ltb_ge in E0;
     destruct (setsockopt_ret env <? 0) eqn:E1;
       [|destruct (bind_ret env <? 0) eqn:E2;
          [|destruct (listen_ret env <? 0) eqn:E3]]];
    cbn; rewrite ?Hoff;
    (split; [reflexivity|]); (split; [reflexivity|]);
    (split; [reflexivity|]); (split; intros Hres);
    try discriminate Hres.
  - split; [exact E0|]. split; [lia|].
    intros t Hin. simpl in Hin. intuition discriminate.
  - split; [lia|]. split; [intros _; simpl; auto|].
    intros t Hin. simpl in Hin. intuition discriminate.
  - split; [lia|]. split; [intros _; simpl; auto|].
    intros t Hin. simpl in Hin. intuition discriminate.
  - split; [lia|]. split; [intros _; simpl; auto 6|].
    intros t Hin. simpl in Hin. intuition discriminate.
  - split; [reflexivity|]. split; [exact E0|].
    split; [reflexivity|]. split; [reflexivity|].
    split; [simpl; auto 8|]. split; [simpl; auto 8|].
    intros fd Hin. simpl in Hin. intuition discriminate.
Qed.

Lemma startServer_leaks_nothing_witness :
  isRunning_ (fst (fst (stopServer listening))) = false
  /\ isRunning_ (snd (fst (startServer fresh_socket 9000
                             (fst (fst (stopServer listening)))))) = true
  /\ serverSocket_ (snd (fst (startServer fresh_socket 9000
                                (fst (fst (stopServer listening)))))) = 4.
Proof.
  assert (isRunning_ (fst (fst (stopServer listening))) = false) as H
    by reflexivity.
  split; [exact H|].
  destruct (startServer_leaks_nothing fresh_socket 9000 _ H)
    as (_ & _ & Hrun & Hok & _).
  split; [exact Hrun|]. apply Hok. reflexivity.
Defined.

End SocketManagerFacts.

Section NativeLibFacts.
Import NativeLib.

(** X26. The pool [initThreadManager] starts has between 2 and 8 workers,
    all waiting and with nothing queued: 4 when the hardware reports no
    core count, one more than the cores up to 8 otherwise.  Only a
    reported count of 2^32 - 1 wraps to a pool without workers. *)
Theorem initThreadManager_pool_size (Task : Type) (hardware_concurrency : Z) :
  0 <= hardware_concurrency < 4294967296 ->
  let manager := @initThreadManager Task None hardware_concurrency in
  ThreadManager.poolThreads_ manager
  = replicate (Z.to_nat (threadCount hardware_concurrency))
      ThreadManager.Waiting
  /\ ThreadManager.taskQueue_ manager = []
  /\ (threadCount hardware_concurrency = 0
      <-> hardware_concurrency = 4294967295)
  /\ (hardware_concurrency <> 4294967295 ->
      2 <= threadCount hardware_concurrency <= 8)
  /\ (1 <= hardware_concurrency <= 7 ->
      threadCount hardware_concurrency = hardware_concurrency + 1).
Proof.
  intros H manager. split; [reflexivity|]. split; [reflexivity|].
  unfold threadCount.
  destruct (hardware_concurrency =? 0) eqn:E.
  - apply Z.eqb_eq in E. subst. repeat split; intros; lia.
  - apply Z.eqb_neq in E.
    destruct (Z.eq_dec hardware_concurrency 4294967295) as [-> | Hne].
    + repeat split; intros; try reflexivity; lia.
    + rewrite Z.mod_small by lia. repeat split; intros; lia.
Qed.

Lemma initThreadManager_pool_size_witness :
  0 <= 6 < 4294967296
  /\ ThreadManager.poolThreads_ (@initThreadManager nat None 6)
     = replicate 7 ThreadManager.Waiting.
Proof.
  assert (0 <= 6 < 4294967296) as H by lia.
  split; [exact H|].
  exact (proj1 (initThreadManager_pool_size nat 6 H)).
Defined.

End NativeLibFacts.
